(** * n19 output streams: a shallow embedding of [Core/Stream.hpp]

    The development follows the header from top to bottom: the sink the
    streams talk to, the virtual [write]/[flush] pair of [OStream], the
    formatting operators built on top of it, and the three concrete
    streams ([OStream], [BufferedOStream<size_>], [NullOStream]).  The
    second half of the file states and proves the properties of the
    buffering algorithm and of the formatting operators. *)

From Stdlib Require Import ZArith Strings.Byte Strings.String.
From stdpp Require Import prelude gmap.

Local Open Scope Z_scope.

(** ** Bytes, spans and [size_t] *)

(** [OStream::Char_] is [Byte], here [byte]; [OStream::Span_], a read-only
    span of them, is a [list byte]. *)

#[global] Instance byte_eq_decision : EqDecision byte := Byte.byte_eq_dec.

(** The bytes of a narrow string literal. *)
Definition bytes_of (s : string) : list byte := list_byte_of_string s.

(** [size_t] is taken to be an unsigned 64-bit integer (an LP64 or LLP64
    target): arithmetic on it is modulo [2^64]. *)
Definition size_t_bits : Z := 64.
Definition size_t_wrap (z : Z) : Z := z mod 2 ^ size_t_bits.
Definition size_t_sub (a b : Z) : Z := size_t_wrap (a - b).
Definition size_t_add (a b : Z) : Z := size_t_wrap (a + b).

(** [std::span::size_bytes()].  A span is at most [SIZE_MAX] bytes long by
    construction, so the count is not reduced. *)
Definition size_bytes (buff : list byte) : Z := Z.of_nat (length buff).

(** ** Assertions *)

(** A call either returns normally or stops the process in [ASSERT]. *)
Inductive result (A : Type) : Type :=
| Ok (a : A)
| Panic (msg : string).
Arguments Ok {A} a.
Arguments Panic {A} msg.

#[global] Instance result_ret : MRet result := fun A a => Ok a.
#[global] Instance result_bind : MBind result := fun A B f m =>
  match m with
  | Ok a => f a
  | Panic msg => Panic msg
  end.

(** Modelled from the spec: the [ASSERT] macro of [Core/Panic.hpp] is not
    part of the reviewed sources.  Buffer invariant violations "trigger an
    unconditional abort/assertion rather than a propagated error": a failed
    assertion ends the call with its message, a successful one does
    nothing. *)
Definition ASSERT (cond : bool) (msg : string) : result unit :=
  if cond then Ok () else Panic msg.

(** ** The sink *)

(** Modelled from the spec: [sys::IODevice] ([Sys/IODevice.hpp]) is an
    external collaborator of which the streams use exactly two operations,
    [write(bytes)] (fire and forget) and [flush_handle()] (synchronise).
    A device is represented by what it has been asked to do so far, oldest
    request first. *)
Inductive SinkCall : Type :=
| SinkWrite (bytes : list byte)
| SinkSync.

Definition IODevice : Type := list SinkCall.

Definition IODevice_write (bytes : list byte) (dev : IODevice) : IODevice :=
  dev ++ [SinkWrite bytes].

Definition flush_handle (dev : IODevice) : IODevice :=
  dev ++ [SinkSync].

(** Modelled from the spec: destroying a device handle.  Handles are copied
    by value between streams ("two streams both targeting stdout") and no
    stream flushes on destruction, so giving up a handle asks nothing of
    the sink. *)
Definition IODevice_destroy (dev : IODevice) : IODevice := dev.

(** The byte sequence a sink has observed: the payloads of its writes, in
    order. *)
Fixpoint sink_bytes (dev : IODevice) : list byte :=
  match dev with
  | [] => []
  | SinkWrite bytes :: rest => bytes ++ sink_bytes rest
  | SinkSync :: rest => sink_bytes rest
  end.

(** The writes a sink has received, one entry per call. *)
Fixpoint sink_writes (dev : IODevice) : list (list byte) :=
  match dev with
  | [] => []
  | SinkWrite bytes :: rest => bytes :: sink_writes rest
  | SinkSync :: rest => sink_writes rest
  end.

(** ** The virtual interface of [OStream] *)

(** [virtual write(const Span_&)] and [virtual flush()].  Both return
    [*this]: the stream after the call. *)
Class OStreamVirtual (S : Type) : Type := {
  write : list byte -> S -> result S;
  flush : S -> result S;
  fd_ : S -> IODevice;
}.

(** ** [class OStream] *)
Module OStream.

Record t : Type := { fd_ : IODevice }.

(** [fd_.write(buff); return *this;] *)
Definition write (buff : list byte) (self : t) : result t :=
  Ok {| fd_ := IODevice_write buff (fd_ self) |}.

(** [fd_.flush_handle(); return *this;] *)
Definition flush (self : t) : result t :=
  Ok {| fd_ := flush_handle (fd_ self) |}.

(** [virtual ~OStream() = default] *)
Definition destroy (self : t) : IODevice := IODevice_destroy (fd_ self).

(** [OStream::from(const sys::IODevice&)] *)
Definition from (dev : IODevice) : t := {| fd_ := dev |}.

End OStream.

#[global] Instance OStream_virtual : OStreamVirtual OStream.t :=
  {| write := OStream.write; flush := OStream.flush; fd_ := OStream.fd_ |}.

(** ** [template<size_t size_> class BufferedOStream] *)
Module BufferedOStream.

(** The inherited [fd_], then [Buffer_ buff_] and [Index_ curr_]. *)
Record t (size_ : Z) : Type := {
  fd_ : IODevice;
  buff_ : list byte;
  curr_ : Z;
}.
Arguments fd_ {size_} _.
Arguments buff_ {size_} _.
Arguments curr_ {size_} _.

Section Template.
Variable size_ : Z.

Definition len_ : Z := size_.
Definition begin_ : Z := 0.

(** [BufferedOStream() = default]: [buff_{}] is zero-filled, [curr_]
    starts at [begin_]; the factory [from] then binds the device. *)
Definition from (dev : IODevice) : t size_ :=
  {| fd_ := dev;
     buff_ := replicate (Z.to_nat len_) "000"%byte;
     curr_ := begin_ |}.

(** [std::memcpy(&buff_[at], src.data(), src.size_bytes())] *)
Definition memcpy (at_ : Z) (src : list byte) (dst : list byte) : list byte :=
  list_inserts (Z.to_nat at_) src dst.

Definition to_buffer (buff : list byte) (self : t size_) : result (t size_) :=
  _ ← ASSERT (curr_ self <=? len_) "Invalid current buffer index.";
  _ ← ASSERT (size_bytes buff <=? size_t_sub len_ (curr_ self)) "Buffer overrun!";
  _ ← ASSERT (negb (size_bytes buff =? 0)) "to_buffer: empty span!";
  Ok {| fd_ := fd_ self;
        buff_ := memcpy (curr_ self) buff (buff_ self);
        curr_ := size_t_add (curr_ self) (size_bytes buff) |}.

Definition flush (self : t size_) : result (t size_) :=
  _ ← ASSERT (curr_ self <=? len_) "Buffer overrun!";
  let self :=
    if begin_ <? curr_ self then
      {| fd_ := IODevice_write (take (Z.to_nat (curr_ self)) (buff_ self)) (fd_ self);
         buff_ := buff_ self;
         curr_ := begin_ |}
    else self in
  Ok {| fd_ := flush_handle (fd_ self);
        buff_ := buff_ self;
        curr_ := curr_ self |}.

Definition write (buff : list byte) (self : t size_) : result (t size_) :=
  let remaining := size_t_sub len_ (curr_ self) in
  let size_new := size_bytes buff in
  let no_space := remaining <? size_new in
  match buff with
  | [] => Ok self
  | _ =>
    if len_ <? size_new then
      self ← flush self;
      Ok {| fd_ := IODevice_write buff (fd_ self);
            buff_ := buff_ self;
            curr_ := curr_ self |}
    else if no_space then
      self ← flush self;
      to_buffer buff self
    else
      to_buffer buff self
  end.

(** [~BufferedOStream() override = default]: the members are given up
    one by one, then the base class. *)
Definition destroy (self : t size_) : IODevice := IODevice_destroy (fd_ self).

End Template.

End BufferedOStream.

#[global] Instance BufferedOStream_virtual (size_ : Z) :
  OStreamVirtual (BufferedOStream.t size_) :=
  {| write := BufferedOStream.write size_;
     flush := BufferedOStream.flush size_;
     fd_ := BufferedOStream.fd_ |}.

(** ** [class NullOStream] *)
Module NullOStream.

(** Only the inherited, never used [fd_]. *)
Record t : Type := { fd_ : IODevice }.

Definition write (_ : list byte) (self : t) : result t := Ok self.

Definition flush (self : t) : result t := Ok self.

(** [~NullOStream() override = default] *)
Definition destroy (self : t) : IODevice := IODevice_destroy (fd_ self).

End NullOStream.

#[global] Instance NullOStream_virtual : OStreamVirtual NullOStream.t :=
  {| write := NullOStream.write; flush := NullOStream.flush; fd_ := NullOStream.fd_ |}.

(** ** Character types and text views *)

(** Modelled from the spec: the [Character] concept of [Core/Concepts.hpp]
    is not among the reviewed sources.  A "recognized character-width type"
    is taken as a code-unit type with a zero value ([static_cast<T>(0)]),
    comparable, and with an object representation of each unit. *)
Class Character (T : Type) : Type := {
  Character_eq_dec :: EqDecision T;
  nul : T;
  unit_bytes : T -> list byte;
}.

(** [char] (and [char8_t]): one byte per unit. *)
#[global] Instance char_Character : Character byte :=
  {| nul := "000"%byte; unit_bytes := fun c => [c] |}.

(** Modelled from the spec: [as_bytes] of [Core/Bytes.hpp] is not among the
    reviewed sources.  Text views are "written directly": the bytes of a
    view are the bytes of its units, in order. *)
Definition as_bytes {T} `{Character T} (str : list T) : list byte :=
  concat (map unit_bytes str).

(** [std::char_traits<T>::length]: the units before the first zero. *)
Fixpoint c_str_length {T} `{Character T} (s : list T) : nat :=
  match s with
  | [] => O
  | c :: rest => if decide (c = nul) then O else S (c_str_length rest)
  end.

(** [std::basic_string_view<T>{ptr}]: the view built from a pointer to
    zero-terminated text. *)
Definition view_of_c_str {T} `{Character T} (s : list T) : list T :=
  take (c_str_length s) s.

(** ** [std::to_chars] *)

(** The conversion facility is the C++ standard library's; it is described
    here as the standard specifies it for integers. *)

(** [std::errc()], the value of "no error", and [std::errc::value_too_large]. *)
Inductive errc : Type :=
| errc_none
| value_too_large.

#[global] Instance errc_eq_dec : EqDecision errc.
Proof. solve_decision. Defined.

(** [std::to_chars_result]; [ptr] is an offset from [first]. *)
Record to_chars_result : Type := { ptr : nat; ec : errc }.

(** The character of one digit: [0-9], then lowercase [a-z]. *)
Definition digit_char (d : Z) : byte :=
  default "000"%byte (Byte.of_N (Z.to_N (if d <? 10 then 48 + d else 87 + d))).

(** The digits of a non-negative [n], most significant first, without
    redundant leading zeros; [fuel] bounds the number of digits. *)
Fixpoint to_chars_digits (fuel : nat) (base : Z) (n : Z) (acc : list byte) : list byte :=
  match fuel with
  | O => acc
  | S fuel' =>
    let acc' := digit_char (n mod base) :: acc in
    if n / base =? 0 then acc' else to_chars_digits fuel' base (n / base) acc'
  end.

(** The text of an integer: a minus sign if it is negative, then its
    digits. *)
Definition integer_text (value : Z) (base : Z) : list byte :=
  (if value <? 0 then ["-"%byte] else []) ++
  to_chars_digits (S (Z.to_nat (Z.log2 (Z.abs value)))) base (Z.abs value) [].

(** [std::to_chars(first, last, value, base)] for the integer types, with
    [first] the start of [buff] and [last] an offset into it.  On success
    the text is stored at [first] and [ptr] is one past its end; when the
    text does not fit in [[first, last)], [ec] is [value_too_large] and
    [ptr] is [last] (the standard leaves the range unspecified then; it is
    kept as it was). *)
Definition to_chars_integer (buff : list byte) (last : nat) (value : Z) (base : Z)
  : list byte * to_chars_result :=
  let text := integer_text value base in
  if (length text <=? last)%nat
  then (list_inserts 0 text buff, {| ptr := length text; ec := errc_none |})
  else (buff, {| ptr := last; ec := value_too_large |}).

(** Reading digits back, to state that [to_chars_digits] is right: the
    value of one digit character, and of a string of them. *)
Definition char_digit (c : byte) : Z :=
  let n := Z.of_N (Byte.to_N c) in
  if n <? 58 then n - 48 else n - 87.

Definition digits_value (base : Z) (digits : list byte) : Z :=
  foldl (fun acc c => acc * base + char_digit c) 0 digits.

(** Modelled from the spec: the [IntOrFloat] concept of [Core/Concepts.hpp]
    is not among the reviewed sources.  It is taken as the formatting
    operator uses it: a type with a [std::to_chars(first, last, value)]
    overload, the "numeric-to-text conversion" with its "reported error
    condition". *)
Class IntOrFloat (T : Type) : Type := {
  to_chars : list byte -> nat -> T -> list byte * to_chars_result;
}.

(** Integers of any width, by their value; the base defaults to 10. *)
#[global] Instance integer_IntOrFloat : IntOrFloat Z :=
  {| to_chars := fun buff last value => to_chars_integer buff last value 10 |}.

(** [reinterpret_cast<uintptr_t>(value)]: the address, as a 64-bit unsigned
    integer. *)
Definition uintptr_t_of (address : Z) : Z := address mod 2 ^ 64.

(** ** The formatting operators of [OStream] *)

(** The sentinel tokens carry nothing; they only select an overload. *)
Inductive Flush_ : Type := Flush.
Inductive Endl_ : Type := Endl.

Section Operators.
Context {S : Type} `{OStreamVirtual S}.

(** [operator<<(const std::string_view&)], and its [u8string_view] and
    (POSIX) [wstring_view] twins, which have the same body. *)
Definition shl_view {T} `{Character T} (str : list T) (self : S) : result S :=
  match str with
  | [] => Ok self
  | _ => write (as_bytes str) self
  end.

(** [template<Character T> operator<<(const T value)].  [*this << buffer]
    selects the view overload: [T buffer[2]] decays to a pointer to
    zero-terminated text. *)
Definition shl_char {T} `{Character T} (value : T) (self : S) : result S :=
  let buffer := [value; nul] in
  shl_view (view_of_c_str buffer) self.

(** The common tail of the two numeric operators: terminate the conversion
    buffer, then write it as text if the conversion succeeded. *)
Definition shl_converted (conv : list byte * to_chars_result) (self : S) : result S :=
  let '(buff, r) := conv in
  let buff := <[39%nat := "000"%byte]> buff in
  if decide (ec r = errc_none) then shl_view (view_of_c_str buff) self
  else Ok self.

(** [template<IntOrFloat T> operator<<(const T value)]: [char buff[40] = {0}],
    converted into [[buff, buff + sizeof(buff) - 1)]. *)
Definition shl_number {T} `{IntOrFloat T} (value : T) (self : S) : result S :=
  let buff := replicate 40 "000"%byte in
  shl_converted (to_chars buff (40 - 1)%nat value) self.

(** [template<Pointer T> operator<<(const T value)]: the pointer is only
    cast to an integer and converted in base 16. *)
Definition shl_pointer (value : Z) (self : S) : result S :=
  let conv := uintptr_t_of value in
  let buff := replicate 40 "000"%byte in
  shl_converted (to_chars_integer buff (40 - 1)%nat conv 16) self.

(** [operator<<(const Flush_&)] *)
Definition shl_Flush (_ : Flush_) (self : S) : result S :=
  flush self.

(** [operator<<(const Endl_&)] *)
Definition shl_Endl (_ : Endl_) (self : S) : result S :=
  self ← shl_char "010"%byte self;
  flush self.

End Operators.

(** The overload set of [operator<<], by the kind of its right operand. *)
Inductive Operand : Type :=
| OpFlush (tok : Flush_)
| OpEndl (tok : Endl_)
| OpChar {T : Type} `{Character T} (value : T)
| OpNumber {T : Type} `{IntOrFloat T} (value : T)
| OpPointer (value : Z)
| OpView {T : Type} `{Character T} (str : list T).

Definition shl {S : Type} `{OStreamVirtual S} (self : S) (x : Operand) : result S :=
  match x with
  | OpFlush tok => shl_Flush tok self
  | OpEndl tok => shl_Endl tok self
  | OpChar value => shl_char value self
  | OpNumber value => shl_number value self
  | OpPointer value => shl_pointer value self
  | OpView str => shl_view str self
  end.

(** ** Sequences of calls *)

(** The two virtual calls a caller can make on a stream reference. *)
Inductive Call : Type :=
| CallWrite (buff : list byte)
| CallFlush.

Definition call {S : Type} `{OStreamVirtual S} (c : Call) (self : S) : result S :=
  match c with
  | CallWrite buff => write buff self
  | CallFlush => flush self
  end.

Fixpoint calls {S : Type} `{OStreamVirtual S} (cs : list Call) (self : S) : result S :=
  match cs with
  | [] => Ok self
  | c :: rest => self ← call c self; calls rest self
  end.

(** Everything a caller can do: a virtual call or a formatting operator. *)
Inductive Operation : Type :=
| Virtual (c : Call)
| Format (x : Operand).

Definition operation {S : Type} `{OStreamVirtual S} (o : Operation) (self : S) : result S :=
  match o with
  | Virtual c => call c self
  | Format x => shl self x
  end.

Fixpoint operations {S : Type} `{OStreamVirtual S} (os : list Operation) (self : S)
  : result S :=
  match os with
  | [] => Ok self
  | o :: rest => self ← operation o self; operations rest self
  end.

(** ** Notions used by the properties *)

(** The class invariant of [BufferedOStream<size_>]: the cursor is within
    the buffer, and the buffer has its declared length. *)
Definition buffer_ok {size_ : Z} (self : BufferedOStream.t size_) : Prop :=
  0 <= BufferedOStream.curr_ self <= size_ /\
  length (BufferedOStream.buff_ self) = Z.to_nat size_.

(** The occupied region [[0, curr_)] of the buffer. *)
Definition occupied {size_ : Z} (self : BufferedOStream.t size_) : list byte :=
  take (Z.to_nat (BufferedOStream.curr_ self)) (BufferedOStream.buff_ self).

(** What a flush hands to the sink: the occupied region as one write if
    there is any, then the synchronisation request. *)
Definition flushed {size_ : Z} (self : BufferedOStream.t size_) : list SinkCall :=
  (if 0 <? BufferedOStream.curr_ self then [SinkWrite (occupied self)] else [])
  ++ [SinkSync].

(** The write algorithm as the specification words it, on the bytes
    accepted into the buffer since the last flush: an empty span changes
    nothing; a span larger than the capacity is preceded by a flush and
    bypasses the buffer; a span larger than the free space is preceded by a
    flush and then accepted; any other span is accepted after what is
    there.  A flush empties the buffer. *)
Definition accept (N : Z) (pending : list byte) (c : Call) : list byte :=
  match c with
  | CallFlush => []
  | CallWrite [] => pending
  | CallWrite bytes =>
    if N <? size_bytes bytes then []
    else if N - size_bytes pending <? size_bytes bytes then bytes
    else pending ++ bytes
  end.

Definition accepted (N : Z) (history : list Call) : list byte :=
  foldl (accept N) [] history.

(** The bytes a call asks the stream to deliver. *)
Definition payload (c : Call) : list byte :=
  match c with
  | CallWrite bytes => bytes
  | CallFlush => []
  end.

(** The outcome of the text conversion an operand goes through, if it goes
    through one. *)
Definition conversion (x : Operand) : option to_chars_result :=
  match x with
  | OpNumber value => Some (to_chars (replicate 40 "000"%byte) 39%nat value).2
  | OpPointer value =>
    Some (to_chars_integer (replicate 40 "000"%byte) 39%nat (uintptr_t_of value) 16).2
  | _ => None
  end.

Definition conversion_failed (x : Operand) : Prop :=
  exists r, conversion x = Some r /\ ec r <> errc_none.

(** ** A recording stream *)

(** A stream that only keeps the virtual calls made on it, in order: the
    observer used to say what an operator asks of any stream. *)
Module Recorder.

Definition t : Type := list Call.

Definition write (buff : list byte) (self : t) : result t :=
  Ok (self ++ [CallWrite buff]).

Definition flush (self : t) : result t :=
  Ok (self ++ [CallFlush]).

(** What the recorder has seen once an operation returns. *)
Definition seen (r : result t) : list Call :=
  match r with
  | Ok cs => cs
  | Panic _ => []
  end.

End Recorder.

#[global] Instance Recorder_virtual : OStreamVirtual Recorder.t :=
  {| write := Recorder.write; flush := Recorder.flush; fd_ := fun _ => [] |}.

(** The virtual calls an operator makes, and those of an operation. *)
Definition operand_calls (x : Operand) : list Call :=
  Recorder.seen (shl ([] : Recorder.t) x).

Definition operation_calls (o : Operation) : list Call :=
  match o with
  | Virtual c => [c]
  | Format x => operand_calls x
  end.

(** ** The buffered stream as a machine on pending bytes *)

(** What a flush hands over given the pending bytes. *)
Definition hand_over (pending : list byte) : list SinkCall :=
  match pending with
  | [] => []
  | _ => [SinkWrite pending]
  end.

(** What one call sends to the sink, given the pending bytes: the
    companion of [accept]. *)
Definition emit (N : Z) (pending : list byte) (c : Call) : list SinkCall :=
  match c with
  | CallFlush => hand_over pending ++ [SinkSync]
  | CallWrite [] => []
  | CallWrite bytes =>
    if N <? size_bytes bytes then
      hand_over pending ++ [SinkSync; SinkWrite bytes]
    else if N - size_bytes pending <? size_bytes bytes then
      hand_over pending ++ [SinkSync]
    else []
  end.

Fixpoint trace (N : Z) (pending : list byte) (cs : list Call) : list SinkCall :=
  match cs with
  | [] => []
  | c :: rest => emit N pending c ++ trace N (accept N pending c) rest
  end.

(** The number of [write] calls with a non-empty span. *)
Definition nonempty_writes (cs : list Call) : nat :=
  length (filter (fun c => payload c <> []) cs).

(** A sink request that is not a write of zero bytes. *)
Definition proper_request (N : Z) (spans : list (list byte)) (e : SinkCall) : Prop :=
  match e with
  | SinkSync => True
  | SinkWrite bytes =>
    bytes <> [] /\ (size_bytes bytes <= N \/ bytes ∈ spans)
  end.

(** The device request a plain [OStream] makes for a call. *)
Definition request_of (c : Call) : SinkCall :=
  match c with
  | CallWrite buff => SinkWrite buff
  | CallFlush => SinkSync
  end.

(** The bytes an operation asks the stream to deliver. *)
Definition operation_bytes (o : Operation) : list byte :=
  concat (map payload (operation_calls o)).

(** * [Core/Maybe.hpp]: the optional value slot *)

(** [Maybe<T>] keeps a flag and raw storage in which a [T] is constructed
    and destroyed by hand.  The model follows the objects: a storage cell
    says which [T], if any, currently lives in it, and the world remembers
    which objects have been destroyed and which were overwritten without
    being destroyed.  [Maybe] objects are told apart by their address, as
    the assignment operators do. *)
Module Maybe.

Section Template.
Variable T : Type.

(** The state a [T] is left in once it has been moved from. *)
Variable moved : T -> T.

(** [bool has_value_] and [alignas(T) uint8_t value_[sizeof(T)]]: the
    object living in the storage, if there is one. *)
Record t : Type := {
  has_value_ : bool;
  value_ : option T;
}.

Record world : Type := {
  objs : gmap nat t;
  destroyed : list T;
  leaked : list T;
}.

(** A call returns, stops in [ASSERT], or has no defined behaviour (a dead
    object or a dangling [Maybe] was used). *)
Inductive outcome (A : Type) : Type :=
| Ret (a : A) (w : world)
| Abort (msg : string)
| Undefined.
Arguments Ret {A} a w.
Arguments Abort {A} msg.
Arguments Undefined {A}.

Definition M (A : Type) : Type := world -> outcome A.

Definition ret {A} (a : A) : M A := fun w => Ret a w.

Definition bind {A B} (m : M A) (f : A -> M B) : M B := fun w =>
  match m w with
  | Ret a w' => f a w'
  | Abort msg => Abort msg
  | Undefined => Undefined
  end.

Definition lift {A} (r : result A) : M A := fun w =>
  match r with
  | Ok a => Ret a w
  | Panic msg => Abort msg
  end.

Definition undefined {A} : M A := fun _ => Undefined.

(** Access to the [Maybe] at an address. *)
Definition get (this : nat) : M t := fun w =>
  match objs w !! this with
  | Some m => Ret m w
  | None => Undefined
  end.

Definition put (this : nat) (m : t) : M unit := fun w =>
  Ret () {| objs := <[this := m]> (objs w);
            destroyed := destroyed w;
            leaked := leaked w |}.

Definition set_has_value (this : nat) (b : bool) : M unit :=
  bind (get this) (fun m => put this {| has_value_ := b; value_ := value_ m |}).

Definition set_storage (this : nat) (s : option T) : M unit :=
  bind (get this) (fun m => put this {| has_value_ := has_value_ m; value_ := s |}).

(** [x.~T()] has run. *)
Definition log_destroyed (x : T) : M unit := fun w =>
  Ret () {| objs := objs w; destroyed := destroyed w ++ [x]; leaked := leaked w |}.

(** An object was overwritten while alive. *)
Definition log_leaked (x : T) : M unit := fun w =>
  Ret () {| objs := objs w; destroyed := destroyed w; leaked := leaked w ++ [x] |}.

(** [value() &] and [value() const&]: assert, then a reference to the
    object in the storage. *)
Definition value (this : nat) : M T :=
  bind (get this) (fun m =>
  bind (lift (ASSERT (has_value_ m) "Maybe has no contained type!")) (fun _ =>
  match value_ m with
  | Some x => ret x
  | None => undefined
  end)).

(** The statement [value().~T();]. *)
Definition destroy_value (this : nat) : M unit :=
  bind (value this) (fun x =>
  bind (set_storage this None) (fun _ =>
  log_destroyed x)).

(** [::new (&value_) T(x)] *)
Definition placement_new (this : nat) (x : T) : M unit :=
  bind (get this) (fun m =>
  bind (match value_ m with
        | Some old => log_leaked old
        | None => ret ()
        end) (fun _ =>
  set_storage this (Some x))).

Definition release_value (this : nat) : M T :=
  bind (get this) (fun m =>
  bind (lift (ASSERT (has_value_ m) "Maybe has no contained type!")) (fun _ =>
  bind (value this) (fun released =>
  bind (set_storage this (Some (moved released))) (fun _ =>
  bind (destroy_value this) (fun _ =>
  bind (set_has_value this false) (fun _ =>
  ret released)))))).


(** [operator*] and [operator->] *)
Definition deref (this : nat) : M T :=
  bind (get this) (fun m =>
  bind (lift (ASSERT (has_value_ m) "Bad Maybe access!")) (fun _ =>
  value this)).

Definition clear (this : nat) : M unit :=
  bind (get this) (fun m =>
  bind (if has_value_ m then destroy_value this else ret ()) (fun _ =>
  set_has_value this false)).

Definition value_or (this : nat) (other : T) : M T :=
  bind (get this) (fun m =>
  if has_value_ m then value this else ret other).

(** [operator=(Maybe&& other)] *)
Definition assign_move (this other : nat) : M unit :=
  if decide (other = this) then ret ()
  else
    bind (clear this) (fun _ =>
    bind (get other) (fun o =>
    if has_value_ o then
      bind (set_has_value this true) (fun _ =>
      bind (release_value other) (fun x =>
      placement_new this x))
    else ret ())).

(** [operator=(const Maybe& other)] *)
Definition assign_copy (this other : nat) : M unit :=
  if decide (other = this) then ret ()
  else
    bind (clear this) (fun _ =>
    bind (get other) (fun o =>
    if has_value_ o then
      bind (set_has_value this true) (fun _ =>
      bind (value other) (fun x =>
      placement_new this x))
    else ret ())).

(** [emplace(args...)], with [x] the [T] that [args] construct. *)
Definition emplace (this : nat) (x : T) : M unit :=
  bind (clear this) (fun _ =>
  bind (placement_new this x) (fun _ =>
  set_has_value this true)).


(** The member initialisers [has_value_{false}] and [value_{}], which every
    constructor starts from; [Maybe()] and [Maybe(const Nothing_&)] do
    nothing more. *)
Definition construct_empty (this : nat) : M unit :=
  put this {| has_value_ := false; value_ := None |}.

(** [Maybe(Args&&... args)] and [create(args...)] *)
Definition construct_value (this : nat) (x : T) : M unit :=
  bind (construct_empty this) (fun _ =>
  bind (placement_new this x) (fun _ =>
  set_has_value this true)).

(** [Maybe(const Maybe& other)] *)
Definition construct_copy (this other : nat) : M unit :=
  bind (construct_empty this) (fun _ =>
  bind (get other) (fun o =>
  if negb (has_value_ o) then ret ()
  else
    bind (value other) (fun x =>
    bind (placement_new this x) (fun _ =>
    set_has_value this true)))).

(** [Maybe(Maybe&& other)] *)
Definition construct_move (this other : nat) : M unit :=
  bind (construct_empty this) (fun _ =>
  bind (get other) (fun o =>
  if negb (has_value_ o) then ret ()
  else
    bind (release_value other) (fun x =>
    bind (placement_new this x) (fun _ =>
    set_has_value this true)))).

(** [~Maybe() { clear(); }], after which the object is gone. *)
Definition destruct_ (this : nat) : M unit :=
  bind (clear this) (fun _ => fun w =>
  Ret () {| objs := delete this (objs w);
            destroyed := destroyed w;
            leaked := leaked w |}).


Definition ignore {A} (m : M A) : M unit := bind m (fun _ => ret ()).




(** The flag tells the truth about the storage, for every object, and
    nothing has been overwritten alive. *)
Definition slot_ok (m : t) : Prop :=
  has_value_ m = bool_decide (is_Some (value_ m)).



End Template.

Arguments has_value_ {T} _.
Arguments value_ {T} _.
Arguments objs {T} _.
Arguments destroyed {T} _.
Arguments leaked {T} _.
Arguments Ret {T A} a w.
Arguments Abort {T A} msg.
Arguments Undefined {T A}.

End Maybe.

(** * [Core/ArgParse.hpp]: the argument vector of [Parser] *)

Module Parser.

(** [enum class ArgStyle : uint8_t] *)
Inductive ArgStyle : Type :=
| UNIX
| DOS
| Masq.

Section Strings.
(** [sys::String]; a [sys::Char*] of [argv] is taken by the string it
    converts to. *)
Variable String_ : Type.
(** [Parameter], which the functions below only carry along. *)
Variable Parameter_ : Type.

Record t : Type := {
  print_errors_ : bool;
  arg_style_ : ArgStyle;
  args_ : list String_;
  params_ : list Parameter_;
}.

(** [Parser() = default] *)
Definition init : t :=
  {| print_errors_ := false; arg_style_ := UNIX; args_ := []; params_ := [] |}.

Definition style (s : ArgStyle) (self : t) : t :=
  {| print_errors_ := print_errors_ self;
     arg_style_ := s;
     args_ := args_ self;
     params_ := params_ self |}.

(** [take_argv(std::vector<sys::String>&& a)] *)
Definition take_argv_vector (a : list String_) (self : t) : t :=
  {| print_errors_ := print_errors_ self;
     arg_style_ := arg_style_ self;
     args_ := a;
     params_ := params_ self |}.

(** One turn of the loop body, [args_.emplace_back(argv[i])]; reading
    [argv] past its end has no defined result. *)
Definition emplace_back_argv (argv : list String_) (args : option (list String_)) (i : Z)
  : option (list String_) :=
  match args with
  | Some args =>
    match argv !! Z.to_nat i with
    | Some a => Some (args ++ [a])
    | None => None
    end
  | None => None
  end.

(** [take_argv(const int argc, sys::Char** argv)]: the loop runs for
    [i = 1, ..., argc - 1]. *)
Definition take_argv (argc : Z) (argv : list String_) (self : t) : option t :=
  match foldl (emplace_back_argv argv) (Some (args_ self)) (seqZ 1 (argc - 1)) with
  | Some args =>
    Some {| print_errors_ := print_errors_ self;
            arg_style_ := arg_style_ self;
            args_ := args;
            params_ := params_ self |}
  | None => None
  end.

End Strings.

Arguments print_errors_ {String_ Parameter_} _.
Arguments arg_style_ {String_ Parameter_} _.
Arguments args_ {String_ Parameter_} _.
Arguments params_ {String_ Parameter_} _.

End Parser.

(** The character types an operand involves have units of at least one
    byte. *)
Definition units_nonempty (x : Operand) : Prop :=
  match x with
  | @OpChar T C _ => forall c : T, unit_bytes c <> []
  | @OpView T C _ => forall c : T, unit_bytes c <> []
  | _ => True
  end.

(** * Properties *)

(** ** Arithmetic on [size_t] and copies into the buffer *)

Lemma size_t_sub_exact (a b : Z) :
  0 <= b <= a -> a < 2 ^ 64 -> size_t_sub a b = a - b.
Proof.
  intros Hb Ha. unfold size_t_sub, size_t_wrap, size_t_bits.
  apply Z.mod_small. lia.
Qed.

Lemma size_t_add_exact (a b : Z) :
  0 <= a -> 0 <= b -> a + b < 2 ^ 64 -> size_t_add a b = a + b.
Proof.
  intros Ha Hb Hab. unfold size_t_add, size_t_wrap, size_t_bits.
  apply Z.mod_small. lia.
Qed.

Lemma size_bytes_nonneg (buff : list byte) : 0 <= size_bytes buff.
Proof. unfold size_bytes. lia. Qed.

Lemma size_bytes_app (a b : list byte) :
  size_bytes (a ++ b) = size_bytes a + size_bytes b.
Proof. unfold size_bytes. rewrite length_app. lia. Qed.

Lemma size_bytes_cons_pos (b : byte) (rest : list byte) :
  0 < size_bytes (b :: rest).
Proof. unfold size_bytes. simpl length. lia. Qed.

(** Copying [src] at offset [i] of a large enough array makes the first
    [i + |src|] cells the old first [i] cells followed by [src]. *)
Lemma take_list_inserts {A} (i : nat) (src dst : list A) :
  (i + length src <= length dst)%nat ->
  take (i + length src) (list_inserts i src dst) = take i dst ++ src.
Proof.
  intros Hfit.
  rewrite <- (take_drop i dst) at 1.
  assert (Hi : length (take i dst) = i) by (rewrite length_take; lia).
  replace i with (length (take i dst) + 0)%nat at 2 by lia.
  rewrite list_inserts_app_r.
  rewrite <- Hi at 1. rewrite take_app_add.
  f_equal.
  rewrite <- (take_drop (length src) (drop i dst)).
  rewrite list_inserts_0_r by (rewrite length_take, length_drop; lia).
  apply take_app_length.
Qed.

Lemma sink_bytes_app (d1 d2 : IODevice) :
  sink_bytes (d1 ++ d2) = sink_bytes d1 ++ sink_bytes d2.
Proof.
  induction d1 as [|[bytes|] d1 IH]; simpl; [done| |done].
  by rewrite IH, app_assoc.
Qed.

Lemma sink_writes_app (d1 d2 : IODevice) :
  sink_writes (d1 ++ d2) = sink_writes d1 ++ sink_writes d2.
Proof.
  induction d1 as [|[bytes|] d1 IH]; simpl; [done| |done].
  by rewrite IH.
Qed.

(** ** [BufferedOStream]: what each method does on a sound stream *)

Section Buffered.
Variable N : Z.
Hypothesis N_size_t : 0 <= N < 2 ^ 64.

Implicit Types self : BufferedOStream.t N.

Lemma occupied_length self :
  buffer_ok self -> size_bytes (occupied self) = BufferedOStream.curr_ self.
Proof.
  intros [Hc Hl]. unfold occupied, size_bytes. rewrite length_take. lia.
Qed.

Lemma sink_bytes_flushed self :
  buffer_ok self -> sink_bytes (flushed self) = occupied self.
Proof.
  intros [Hc Hl]. unfold flushed.
  destruct (Z.ltb_spec 0 (BufferedOStream.curr_ self)) as [Hpos|Hzero]; simpl.
  - by rewrite app_nil_r.
  - unfold occupied. replace (BufferedOStream.curr_ self) with 0 by lia. done.
Qed.

Lemma flush_spec self :
  0 <= BufferedOStream.curr_ self <= N ->
  BufferedOStream.flush N self =
  Ok {| BufferedOStream.fd_ := BufferedOStream.fd_ self ++ flushed self;
        BufferedOStream.buff_ := BufferedOStream.buff_ self;
        BufferedOStream.curr_ := 0 |}.
Proof.
  intros Hc. unfold BufferedOStream.flush, BufferedOStream.len_, flushed, occupied.
  destruct (Z.leb_spec (BufferedOStream.curr_ self) N) as [_|]; [|lia].
  simpl. unfold BufferedOStream.begin_.
  destruct (Z.ltb_spec 0 (BufferedOStream.curr_ self)) as [Hpos|Hzero]; simpl.
  - unfold flush_handle, IODevice_write. by rewrite <- app_assoc.
  - unfold flush_handle. f_equal. f_equal. lia.
Qed.

Lemma to_buffer_spec (buff : list byte) self :
  buffer_ok self -> buff <> [] ->
  size_bytes buff <= N - BufferedOStream.curr_ self ->
  BufferedOStream.to_buffer N buff self =
  Ok {| BufferedOStream.fd_ := BufferedOStream.fd_ self;
        BufferedOStream.buff_ :=
          BufferedOStream.memcpy (BufferedOStream.curr_ self) buff
            (BufferedOStream.buff_ self);
        BufferedOStream.curr_ := BufferedOStream.curr_ self + size_bytes buff |}.
Proof.
  intros [Hc Hl] Hne Hfit.
  unfold BufferedOStream.to_buffer, BufferedOStream.len_.
  rewrite size_t_sub_exact by lia.
  pose proof (size_bytes_nonneg buff) as Hnn.
  rewrite size_t_add_exact by lia.
  destruct (Z.leb_spec (BufferedOStream.curr_ self) N) as [_|]; [|lia].
  destruct (Z.leb_spec (size_bytes buff) (N - BufferedOStream.curr_ self)) as [_|]; [|lia].
  destruct (Z.eqb_spec (size_bytes buff) 0) as [Hz|_]; [|done].
  destruct buff; [done|]. pose proof (size_bytes_cons_pos b buff). lia.
Qed.

(** After an accepted copy the occupied region is the old one followed by
    the new bytes. *)
Lemma occupied_after_copy (buff : list byte) self :
  buffer_ok self ->
  size_bytes buff <= N - BufferedOStream.curr_ self ->
  take (Z.to_nat (BufferedOStream.curr_ self + size_bytes buff))
    (BufferedOStream.memcpy (BufferedOStream.curr_ self) buff
       (BufferedOStream.buff_ self))
  = occupied self ++ buff.
Proof.
  intros [Hc Hl] Hfit. unfold BufferedOStream.memcpy, occupied, size_bytes in *.
  replace (Z.to_nat (BufferedOStream.curr_ self + Z.of_nat (length buff)))
    with (Z.to_nat (BufferedOStream.curr_ self) + length buff)%nat by lia.
  apply take_list_inserts. lia.
Qed.

(** The four cases of [write], with the stream each one leaves behind. *)
Lemma write_cases (buff : list byte) self :
  buffer_ok self ->
  BufferedOStream.write N buff self =
    (if decide (buff = []) then
       Ok self
     else if decide (N < size_bytes buff) then
       Ok {| BufferedOStream.fd_ :=
               BufferedOStream.fd_ self ++ flushed self ++ [SinkWrite buff];
             BufferedOStream.buff_ := BufferedOStream.buff_ self;
             BufferedOStream.curr_ := 0 |}
     else if decide (N - BufferedOStream.curr_ self < size_bytes buff) then
       Ok {| BufferedOStream.fd_ :=
               BufferedOStream.fd_ self ++ [SinkWrite (occupied self); SinkSync];
             BufferedOStream.buff_ :=
               BufferedOStream.memcpy 0 buff (BufferedOStream.buff_ self);
             BufferedOStream.curr_ := size_bytes buff |}
     else
       Ok {| BufferedOStream.fd_ := BufferedOStream.fd_ self;
             BufferedOStream.buff_ :=
               BufferedOStream.memcpy (BufferedOStream.curr_ self) buff
                 (BufferedOStream.buff_ self);
             BufferedOStream.curr_ := BufferedOStream.curr_ self + size_bytes buff |}).
Proof.
  intros Hok. pose proof Hok as [Hc Hl].
  destruct buff as [|b rest]; [done|].
  rewrite decide_False by done.
  pose proof (size_bytes_cons_pos b rest) as Hpos.
  unfold BufferedOStream.write, BufferedOStream.len_.
  rewrite size_t_sub_exact by lia.
  destruct (Z.ltb_spec N (size_bytes (b :: rest))) as [Hbig|Hsmall].
  - rewrite decide_True by done.
    rewrite flush_spec by done. simpl.
    unfold IODevice_write. by rewrite <- app_assoc.
  - rewrite decide_False by lia.
    destruct (Z.ltb_spec (N - BufferedOStream.curr_ self) (size_bytes (b :: rest)))
      as [Hfull|Hfree].
    + rewrite decide_True by done.
      rewrite flush_spec by done. simpl.
      rewrite to_buffer_spec; [|split; simpl; [lia|done]|done|simpl; lia].
      simpl. unfold flushed.
      destruct (Z.ltb_spec 0 (BufferedOStream.curr_ self)) as [_|Hz]; [done|lia].
    + rewrite decide_False by lia.
      by rewrite to_buffer_spec.
Qed.

(** The occupied region after a write that went through the buffer. *)
Lemma write_occupied (buff : list byte) self self' :
  buffer_ok self ->
  BufferedOStream.write N buff self = Ok self' ->
  buff <> [] -> size_bytes buff <= N ->
  occupied self' =
    if decide (N - BufferedOStream.curr_ self < size_bytes buff) then buff
    else occupied self ++ buff.
Proof.
  intros Hok Hw Hne Hfit. pose proof Hok as [Hc Hl].
  rewrite write_cases in Hw by done.
  rewrite decide_False in Hw by done.
  rewrite decide_False in Hw by lia.
  destruct (decide (N - BufferedOStream.curr_ self < size_bytes buff)) as [Hfull|Hfree];
    injection Hw as <-; unfold occupied at 1; simpl.
  - pose proof (occupied_after_copy buff
      {| BufferedOStream.fd_ := BufferedOStream.fd_ self;
         BufferedOStream.buff_ := BufferedOStream.buff_ self;
         BufferedOStream.curr_ := 0 |}) as Hcopy.
    simpl in Hcopy. rewrite Z.add_0_l in Hcopy.
    rewrite Hcopy; [done|split; simpl; [lia|done]|lia].
  - apply occupied_after_copy; [done|lia].
Qed.

(** One virtual call on a sound stream: it returns, the stream stays
    sound, the sink only receives further requests, the occupied region
    follows [accept], and no byte is lost or duplicated between the sink and
    the buffer. *)
Lemma call_sound (c : Call) self :
  buffer_ok self ->
  exists self' sent,
    call c self = Ok self' /\
    buffer_ok self' /\
    BufferedOStream.fd_ self' = BufferedOStream.fd_ self ++ sent /\
    occupied self' = accept N (occupied self) c /\
    sink_bytes sent ++ occupied self' = occupied self ++ payload c.
Proof.
  intros Hok. pose proof Hok as [Hc Hl].
  pose proof (occupied_length self Hok) as Hlen.
  destruct c as [buff|]; simpl.
  - pose proof (write_cases buff self Hok) as Hw.
    pose proof (write_occupied buff self) as Hocc.
    destruct buff as [|b rest].
    { exists self, []. rewrite decide_True in Hw by done.
      by rewrite !app_nil_r. }
    pose proof (size_bytes_cons_pos b rest) as Hpos.
    set (buff := b :: rest) in *.
    rewrite decide_False in Hw by done.
    unfold accept. fold buff. rewrite Hlen.
    destruct (decide (N < size_bytes buff)) as [Hbig|Hsmall].
    { eexists _, _. split; [exact Hw|].
      destruct (Z.ltb_spec N (size_bytes buff)) as [_|]; [|lia].
      split; [split; simpl; [lia|done]|].
      split; [done|]. split; [done|]. unfold occupied at 1. simpl.
      rewrite !sink_bytes_app, sink_bytes_flushed by done. simpl.
      by rewrite !app_nil_r. }
    destruct (Z.ltb_spec N (size_bytes buff)) as [|_]; [lia|].
    destruct (decide (N - BufferedOStream.curr_ self < size_bytes buff))
      as [Hfull|Hfree].
    + eexists _, _. split; [exact Hw|].
      specialize (Hocc _ Hok Hw ltac:(done) ltac:(lia)).
      simpl in Hocc. rewrite Hocc.
      destruct (Z.ltb_spec (N - BufferedOStream.curr_ self) (size_bytes buff))
        as [_|]; [|lia].
      split; [split; simpl; [lia|unfold BufferedOStream.memcpy; by rewrite length_inserts]|].
      split; [done|]. split; [done|]. simpl. by rewrite app_nil_r.
    + eexists _, []. split; [exact Hw|].
      specialize (Hocc _ Hok Hw ltac:(done) ltac:(lia)).
      simpl in Hocc. rewrite Hocc.
      destruct (Z.ltb_spec (N - BufferedOStream.curr_ self) (size_bytes buff))
        as [|_]; [lia|].
      split; [split; simpl; [lia|unfold BufferedOStream.memcpy; by rewrite length_inserts]|].
      split; [by rewrite app_nil_r|]. by split.
  - rewrite flush_spec by done. eexists _, _. split; [done|].
    split; [split; simpl; [lia|done]|].
    split; [done|]. split; [done|]. unfold occupied at 1. simpl.
    by rewrite sink_bytes_flushed, !app_nil_r.
Qed.

(** Any sequence of virtual calls on a sound stream. *)
Lemma calls_sound (cs : list Call) self :
  buffer_ok self ->
  exists self' sent,
    calls cs self = Ok self' /\
    buffer_ok self' /\
    BufferedOStream.fd_ self' = BufferedOStream.fd_ self ++ sent /\
    occupied self' = foldl (accept N) (occupied self) cs /\
    sink_bytes sent ++ occupied self' = occupied self ++ concat (map payload cs).
Proof.
  revert self. induction cs as [|c cs IH]; intros self Hok.
  - exists self, []. simpl. by rewrite !app_nil_r.
  - destruct (call_sound c self Hok) as (mid & sent1 & Hcall & Hmid & Hfd & Hocc & Hbytes).
    destruct (IH mid Hmid) as (self' & sent2 & Hcalls & Hok' & Hfd' & Hocc' & Hbytes').
    exists self', (sent1 ++ sent2). simpl. rewrite Hcall. simpl.
    split; [done|]. split; [done|].
    split; [by rewrite Hfd', Hfd, app_assoc|].
    split; [by rewrite Hocc', Hocc|].
    rewrite sink_bytes_app, <- app_assoc, Hbytes', app_assoc, Hbytes.
    by rewrite <- app_assoc.
Qed.

(** What [accepted] computes is the concatenation, in order, of the spans
    of the most recent calls: those made since the last flush, be it a call
    to [flush] or one triggered inside [write]. *)
Lemma accepted_recent (history : list Call) :
  exists recent,
    recent `suffix_of` history /\
    accepted N history = concat (map payload recent).
Proof.
  induction history as [|c history IH] using rev_ind.
  - exists []. done.
  - destruct IH as (recent & Hsuf & Hacc).
    unfold accepted in *. rewrite foldl_app. simpl. rewrite Hacc.
    assert (Hkeep : exists recent',
               recent' `suffix_of` history ++ [c] /\
               concat (map payload recent) ++ payload c
                 = concat (map payload recent')).
    { exists (recent ++ [c]). split; [by apply suffix_app|].
      rewrite map_app, concat_app. simpl. by rewrite app_nil_r. }
    assert (Hdrop : exists recent',
               recent' `suffix_of` history ++ [c] /\
               [] = concat (map payload recent')).
    { exists []. split; [apply suffix_nil|done]. }
    destruct c as [[|b rest]|]; simpl.
    + destruct Hkeep as (r & ? & Heq). exists r. split; [done|].
      rewrite <- Heq. simpl. by rewrite app_nil_r.
    + destruct (N <? size_bytes (b :: rest)); [exact Hdrop|].
      destruct (N - size_bytes (concat (map payload recent)) <? size_bytes (b :: rest)).
      * exists [CallWrite (b :: rest)]. split; [by apply suffix_app_r|].
        simpl. by rewrite app_nil_r.
      * exact Hkeep.
    + exact Hdrop.
Qed.

Lemma from_sound (dev : IODevice) :
  buffer_ok (BufferedOStream.from N dev) /\
  occupied (BufferedOStream.from N dev) = [].
Proof.
  split; [split|]; simpl.
  - unfold BufferedOStream.begin_. lia.
  - by rewrite length_replicate.
  - done.
Qed.

End Buffered.

(** ** [BufferedOStream::write]: the case split *)

(** C1.  On a stream that satisfies the class invariant, [write] follows
    exactly four cases, tried in this order.  An empty span changes nothing.
    A span longer than the capacity [N] makes the stream flush what it holds
    (sink: the occupied region if there is one, then a synchronisation) and
    then hand the span to the sink directly; the buffer array is untouched
    and the cursor is 0.  A span longer than the free space [N - curr] makes
    the stream flush and then copy the span at offset 0 of the emptied
    buffer, the cursor becoming the span's size.  Any other span is copied
    at offset [curr] with nothing sent to the sink, and the cursor advances
    by the span's size.  In the two copying cases the occupied region
    afterwards is the span alone, respectively the old region followed by
    the span. *)
Theorem write_case_split (N : Z) (buff : list byte) (self : BufferedOStream.t N) :
  0 <= N < 2 ^ 64 ->
  buffer_ok self ->
  let curr := BufferedOStream.curr_ self in
  BufferedOStream.write N buff self =
    (if decide (buff = []) then
       Ok self
     else if decide (N < size_bytes buff) then
       Ok {| BufferedOStream.fd_ :=
               BufferedOStream.fd_ self ++ flushed self ++ [SinkWrite buff];
             BufferedOStream.buff_ := BufferedOStream.buff_ self;
             BufferedOStream.curr_ := 0 |}
     else if decide (N - curr < size_bytes buff) then
       Ok {| BufferedOStream.fd_ :=
               BufferedOStream.fd_ self ++ [SinkWrite (occupied self); SinkSync];
             BufferedOStream.buff_ :=
               BufferedOStream.memcpy 0 buff (BufferedOStream.buff_ self);
             BufferedOStream.curr_ := size_bytes buff |}
     else
       Ok {| BufferedOStream.fd_ := BufferedOStream.fd_ self;
             BufferedOStream.buff_ :=
               BufferedOStream.memcpy curr buff (BufferedOStream.buff_ self);
             BufferedOStream.curr_ := curr + size_bytes buff |})
  /\ (forall self',
        BufferedOStream.write N buff self = Ok self' ->
        buff <> [] -> size_bytes buff <= N ->
        occupied self' =
          if decide (N - curr < size_bytes buff) then buff
          else occupied self ++ buff).
Proof.
  intros HN Hok curr. split.
  - by apply write_cases.
  - intros self' Hw Hne Hfit. by apply write_occupied.
Qed.

Lemma write_case_split_witness :
  let self : BufferedOStream.t 8 :=
    {| BufferedOStream.fd_ := [];
       BufferedOStream.buff_ := bytes_of "ABCDEFG" ++ ["000"%byte];
       BufferedOStream.curr_ := 7 |} in
  BufferedOStream.write 8 (bytes_of "HIJ") self =
  Ok {| BufferedOStream.fd_ := [SinkWrite (bytes_of "ABCDEFG"); SinkSync];
        BufferedOStream.buff_ := bytes_of "HIJDEFG" ++ ["000"%byte];
        BufferedOStream.curr_ := 3 |}.
Proof.
  intros self.
  assert (HN : 0 <= 8 < 2 ^ 64) by lia.
  assert (Hok : buffer_ok self) by (split; simpl; [lia|reflexivity]).
  exact (proj1 (write_case_split 8 (bytes_of "HIJ") self HN Hok)).
Defined.

(** ** The buffer invariant *)

(** C2.  Take any sequence of [write] and [flush] calls on a freshly
    constructed [BufferedOStream<N>] and stop after any number [k] of them:
    every call so far has returned, the cursor satisfies [0 <= curr <= N],
    and the first [curr] bytes of the buffer are the concatenation, in
    order, of the spans accepted into the buffer since the last flush
    ([accepted], which is the concatenation of the spans of the most recent
    calls). *)
Theorem buffer_invariant (N : Z) (dev : IODevice) (history : list Call) (k : nat) :
  0 <= N < 2 ^ 64 ->
  exists self : BufferedOStream.t N,
    calls (take k history) (BufferedOStream.from N dev) = Ok self /\
    0 <= BufferedOStream.curr_ self <= N /\
    length (BufferedOStream.buff_ self) = Z.to_nat N /\
    take (Z.to_nat (BufferedOStream.curr_ self)) (BufferedOStream.buff_ self)
      = accepted N (take k history) /\
    exists recent : list Call,
      recent `suffix_of` take k history /\
      take (Z.to_nat (BufferedOStream.curr_ self)) (BufferedOStream.buff_ self)
        = concat (map payload recent).
Proof.
  intros HN.
  destruct (from_sound N HN dev) as [Hok Hocc].
  destruct (calls_sound N HN (take k history) _ Hok)
    as (self & sent & Hcalls & [Hc Hl] & _ & Hacc & _).
  rewrite Hocc in Hacc. fold (accepted N (take k history)) in Hacc.
  destruct (accepted_recent N (take k history)) as (recent & Hsuf & Hrecent).
  exists self. repeat (split; [done|]).
  exists recent. split; [done|]. unfold occupied in Hacc. by rewrite Hacc.
Qed.

Lemma buffer_invariant_witness :
  exists self : BufferedOStream.t 8,
    calls (take 3
             [CallWrite (bytes_of "AB"); CallWrite (bytes_of "CDEFG");
              CallWrite (bytes_of "HIJ"); CallFlush])
      (BufferedOStream.from 8 []) = Ok self /\
    0 <= BufferedOStream.curr_ self <= 8 /\
    length (BufferedOStream.buff_ self) = Z.to_nat 8 /\
    take (Z.to_nat (BufferedOStream.curr_ self)) (BufferedOStream.buff_ self)
      = accepted 8
          (take 3
             [CallWrite (bytes_of "AB"); CallWrite (bytes_of "CDEFG");
              CallWrite (bytes_of "HIJ"); CallFlush]) /\
    exists recent : list Call,
      recent `suffix_of`
        take 3 [CallWrite (bytes_of "AB"); CallWrite (bytes_of "CDEFG");
                CallWrite (bytes_of "HIJ"); CallFlush] /\
      take (Z.to_nat (BufferedOStream.curr_ self)) (BufferedOStream.buff_ self)
        = concat (map payload recent).
Proof.
  apply (buffer_invariant 8 []
           [CallWrite (bytes_of "AB"); CallWrite (bytes_of "CDEFG");
            CallWrite (bytes_of "HIJ"); CallFlush] 3).
  lia.
Defined.

(** ** Order across a bypass write *)

(** C3.  On a sound [BufferedOStream<N>], write [A] (at most [N] bytes),
    then [B] (more than [N] bytes), then [C] (at most [N] bytes), then
    flush.  All four calls return, and what the sink receives during them
    splits into three parts: requests carrying exactly what was buffered
    beforehand followed by [A]; then [B] as one write of its own; then
    requests carrying exactly [C].  So [A] reaches the sink before the
    bypass write, [C] after it, and neither is mixed with [B]. *)
Theorem order_across_bypass (N : Z) (A B C : list byte) (self : BufferedOStream.t N) :
  0 <= N < 2 ^ 64 ->
  buffer_ok self ->
  size_bytes A <= N -> N < size_bytes B -> size_bytes C <= N ->
  exists (self' : BufferedOStream.t N) (before after : list SinkCall),
    calls [CallWrite A; CallWrite B; CallWrite C; CallFlush] self = Ok self' /\
    BufferedOStream.fd_ self' =
      BufferedOStream.fd_ self ++ before ++ [SinkWrite B] ++ after /\
    sink_bytes before = occupied self ++ A /\
    sink_bytes after = C /\
    BufferedOStream.curr_ self' = 0.
Proof.
  intros HN Hok HA HB HC.
  destruct (call_sound N HN (CallWrite A) self Hok)
    as (s1 & sent1 & Hcall1 & Hok1 & Hfd1 & _ & Hbytes1).
  pose proof (write_cases N HN B s1 Hok1) as Hw2.
  assert (HBne : B <> []).
  { intros ->. unfold size_bytes in HB. simpl in HB. lia. }
  rewrite decide_False in Hw2 by done.
  rewrite decide_True in Hw2 by done.
  match type of Hw2 with _ = Ok ?s => set (s2 := s) in * end.
  assert (Hok2 : buffer_ok s2).
  { destruct Hok1 as [_ Hl1]. split; simpl; [lia|done]. }
  destruct (call_sound N HN (CallWrite C) s2 Hok2)
    as (s3 & sent3 & Hcall3 & Hok3 & Hfd3 & _ & Hbytes3).
  pose proof (flush_spec N s3 (proj1 Hok3)) as Hfl.
  eexists _, (sent1 ++ flushed s1), (sent3 ++ flushed s3).
  split.
  { simpl in *. rewrite Hcall1. simpl. rewrite Hw2. simpl.
    rewrite Hcall3. simpl. rewrite Hfl. reflexivity. }
  simpl. split.
  { rewrite Hfd3. unfold s2 at 1. simpl. rewrite Hfd1.
    by rewrite <- !app_assoc. }
  split.
  { by rewrite sink_bytes_app, sink_bytes_flushed. }
  split; [|done].
  rewrite sink_bytes_app, sink_bytes_flushed by done.
  rewrite Hbytes3. done.
Qed.

Lemma order_across_bypass_witness :
  exists (self' : BufferedOStream.t 4) (before after : list SinkCall),
    calls [CallWrite (bytes_of "ab"); CallWrite (bytes_of "hello");
           CallWrite (bytes_of "cd"); CallFlush]
      (BufferedOStream.from 4 []) = Ok self' /\
    BufferedOStream.fd_ self' =
      BufferedOStream.fd_ (BufferedOStream.from 4 []) ++
      before ++ [SinkWrite (bytes_of "hello")] ++ after /\
    sink_bytes before = occupied (BufferedOStream.from 4 []) ++ bytes_of "ab" /\
    sink_bytes after = bytes_of "cd" /\
    BufferedOStream.curr_ self' = 0.
Proof.
  apply (order_across_bypass 4 (bytes_of "ab") (bytes_of "hello") (bytes_of "cd")
           (BufferedOStream.from 4 [])).
  - lia.
  - split; simpl; [unfold BufferedOStream.begin_; lia|reflexivity].
  - vm_compute. discriminate.
  - vm_compute. reflexivity.
  - vm_compute. discriminate.
Defined.

(** ** [BufferedOStream::flush] *)

(** C4.  On a stream whose cursor is within the buffer, [flush] hands the
    occupied region [[0, curr)] to the sink as a single write exactly when
    [curr > 0], always follows with a synchronisation request, and leaves
    the cursor at 0 and the buffer array as it was.  A second [flush]
    straight after the first writes nothing: it only adds another
    synchronisation request, so the sink has received the same writes as
    after one flush, and the cursor is still 0. *)
Theorem flush_twice (N : Z) (self : BufferedOStream.t N) :
  0 <= BufferedOStream.curr_ self <= N ->
  exists once twice : BufferedOStream.t N,
    BufferedOStream.flush N self = Ok once /\
    BufferedOStream.fd_ once =
      BufferedOStream.fd_ self ++
      (if 0 <? BufferedOStream.curr_ self
       then [SinkWrite (take (Z.to_nat (BufferedOStream.curr_ self))
                          (BufferedOStream.buff_ self))]
       else []) ++ [SinkSync] /\
    BufferedOStream.curr_ once = 0 /\
    BufferedOStream.buff_ once = BufferedOStream.buff_ self /\
    BufferedOStream.flush N once = Ok twice /\
    BufferedOStream.fd_ twice = BufferedOStream.fd_ once ++ [SinkSync] /\
    BufferedOStream.curr_ twice = 0 /\
    BufferedOStream.buff_ twice = BufferedOStream.buff_ self /\
    sink_writes (BufferedOStream.fd_ twice) = sink_writes (BufferedOStream.fd_ once).
Proof.
  intros Hc.
  pose proof (flush_spec N self Hc) as H1.
  match type of H1 with _ = Ok ?s => set (once := s) in * end.
  assert (Hc1 : 0 <= BufferedOStream.curr_ once <= N) by (simpl; lia).
  pose proof (flush_spec N once Hc1) as H2.
  eexists once, _. split; [exact H1|].
  split; [done|]. split; [done|]. split; [done|].
  split; [exact H2|]. simpl.
  split; [done|]. split; [done|]. split; [done|].
  rewrite sink_writes_app. simpl. by rewrite app_nil_r.
Qed.

Lemma flush_twice_witness :
  let self : BufferedOStream.t 8 :=
    {| BufferedOStream.fd_ := [];
       BufferedOStream.buff_ := bytes_of "HIJDEFG" ++ ["000"%byte];
       BufferedOStream.curr_ := 3 |} in
  exists once twice : BufferedOStream.t 8,
    BufferedOStream.flush 8 self = Ok once /\
    BufferedOStream.fd_ once = [] ++ [SinkWrite (bytes_of "HIJ")] ++ [SinkSync] /\
    BufferedOStream.curr_ once = 0 /\
    BufferedOStream.buff_ once = BufferedOStream.buff_ self /\
    BufferedOStream.flush 8 once = Ok twice /\
    BufferedOStream.fd_ twice = BufferedOStream.fd_ once ++ [SinkSync] /\
    BufferedOStream.curr_ twice = 0 /\
    BufferedOStream.buff_ twice = BufferedOStream.buff_ self /\
    sink_writes (BufferedOStream.fd_ twice) = sink_writes (BufferedOStream.fd_ once).
Proof.
  intros self.
  assert (Hc : 0 <= BufferedOStream.curr_ self <= 8) by (simpl; lia).
  exact (flush_twice 8 self Hc).
Defined.

(** ** A worked scenario *)

(** C5.  Capacity 8, empty stream.  After writing "AB" and "CDEFG" the sink
    has received nothing and the cursor is 7.  Writing "HIJ" then finds 1
    free byte for 3, so the sink receives exactly one write, the 7 bytes
    "ABCDEFG" (followed by the flush's synchronisation request); afterwards
    the occupied region of the buffer is exactly "HIJ" and the cursor is
    3. *)
Theorem scenario_capacity_8 :
  exists two three : BufferedOStream.t 8,
    calls [CallWrite (bytes_of "AB"); CallWrite (bytes_of "CDEFG")]
      (BufferedOStream.from 8 []) = Ok two /\
    BufferedOStream.fd_ two = [] /\
    BufferedOStream.curr_ two = 7 /\
    8 - BufferedOStream.curr_ two = 1 /\
    call (CallWrite (bytes_of "HIJ")) two = Ok three /\
    BufferedOStream.fd_ three = [SinkWrite (bytes_of "ABCDEFG"); SinkSync] /\
    sink_writes (BufferedOStream.fd_ three) = [bytes_of "ABCDEFG"] /\
    occupied three = bytes_of "HIJ" /\
    BufferedOStream.curr_ three = 3.
Proof.
  eexists _, _. split; [vm_compute; reflexivity|].
  repeat split; vm_compute; reflexivity.
Qed.

(** Capacity 4, empty stream, one 10-byte span: the span goes to the sink
    as a single direct write, after the synchronisation request of the
    flush that precedes it, and the cursor stays 0. *)
Example scenario_capacity_4 :
  call (CallWrite (bytes_of "0123456789")) (BufferedOStream.from 4 []) =
  Ok {| BufferedOStream.fd_ := [SinkSync; SinkWrite (bytes_of "0123456789")];
        BufferedOStream.buff_ := replicate 4 "000"%byte;
        BufferedOStream.curr_ := 0 |}.
Proof. vm_compute. reflexivity. Qed.

(** ** Destruction *)

(** C9.  Destroying a [BufferedOStream<N>] asks nothing of the sink: what
    the sink has received is exactly what it had received before.  With
    [curr > 0] this loses data: the [curr] buffered bytes, which a flush
    before the destruction would have delivered, never arrive. *)
Theorem destroy_discards (N : Z) (self : BufferedOStream.t N) :
  0 < BufferedOStream.curr_ self <= N ->
  length (BufferedOStream.buff_ self) = Z.to_nat N ->
  BufferedOStream.destroy N self = BufferedOStream.fd_ self /\
  sink_bytes (BufferedOStream.destroy N self) = sink_bytes (BufferedOStream.fd_ self) /\
  size_bytes (occupied self) = BufferedOStream.curr_ self /\
  exists flushed_first : BufferedOStream.t N,
    BufferedOStream.flush N self = Ok flushed_first /\
    sink_bytes (BufferedOStream.destroy N flushed_first) =
      sink_bytes (BufferedOStream.destroy N self) ++ occupied self.
Proof.
  intros Hc Hl.
  assert (Hok : buffer_ok self) by (split; [lia|done]).
  split; [done|]. split; [done|].
  split; [by apply occupied_length|].
  rewrite flush_spec by lia. eexists. split; [done|].
  unfold BufferedOStream.destroy, IODevice_destroy. simpl.
  by rewrite sink_bytes_app, sink_bytes_flushed.
Qed.

Lemma destroy_discards_witness :
  let self : BufferedOStream.t 8 :=
    {| BufferedOStream.fd_ := [SinkWrite (bytes_of "ABCDEFG"); SinkSync];
       BufferedOStream.buff_ := bytes_of "HIJDEFG" ++ ["000"%byte];
       BufferedOStream.curr_ := 3 |} in
  BufferedOStream.destroy 8 self = [SinkWrite (bytes_of "ABCDEFG"); SinkSync] /\
  sink_bytes (BufferedOStream.destroy 8 self) = sink_bytes (BufferedOStream.fd_ self) /\
  size_bytes (occupied self) = 3 /\
  exists flushed_first : BufferedOStream.t 8,
    BufferedOStream.flush 8 self = Ok flushed_first /\
    sink_bytes (BufferedOStream.destroy 8 flushed_first) =
      sink_bytes (BufferedOStream.destroy 8 self) ++ occupied self.
Proof.
  intros self.
  assert (Hc : 0 < BufferedOStream.curr_ self <= 8) by (simpl; lia).
  assert (Hl : length (BufferedOStream.buff_ self) = Z.to_nat 8) by reflexivity.
  exact (destroy_discards 8 self Hc Hl).
Defined.

(** ** The conversion buffer is large enough for the built-in integers *)

Lemma to_chars_digits_length (fuel : nat) (base n : Z) (acc : list byte) (k : nat) :
  2 <= base -> 0 <= n < base ^ Z.of_nat (S k) ->
  (length (to_chars_digits fuel base n acc) <= S k + length acc)%nat.
Proof.
  intros Hbase. revert n acc k.
  induction fuel as [|fuel IH]; intros n acc k Hn; simpl; [lia|].
  destruct (Z.eqb_spec (n / base) 0) as [_|Hq]; [simpl; lia|].
  assert (Hpow : base ^ Z.of_nat (S k) = base * base ^ Z.of_nat k).
  { rewrite Nat2Z.inj_succ, Z.pow_succ_r by lia. done. }
  assert (Hlo : 0 <= n / base) by (apply Z.div_pos; lia).
  assert (Hhi : n / base < base ^ Z.of_nat k).
  { apply Z.div_lt_upper_bound; lia. }
  destruct k as [|k].
  { simpl in Hhi. lia. }
  specialize (IH (n / base) (digit_char (n mod base) :: acc) k (conj Hlo Hhi)).
  simpl in IH. lia.
Qed.

Lemma integer_text_length (value base : Z) (k : nat) :
  2 <= base -> Z.abs value < base ^ Z.of_nat (S k) ->
  (length (integer_text value base) <= S (S k))%nat.
Proof.
  intros Hbase Hv. unfold integer_text. rewrite length_app.
  pose proof (to_chars_digits_length
    (S (Z.to_nat (Z.log2 (Z.abs value)))) base (Z.abs value) [] k Hbase) as Hd.
  simpl length in Hd. destruct (value <? 0); simpl length; lia.
Qed.

(** Every 64-bit address converts: 16 hexadecimal digits at most. *)
Lemma pointer_conversion_succeeds (buff : list byte) (value : Z) :
  ec (to_chars_integer buff 39 (uintptr_t_of value) 16).2 = errc_none.
Proof.
  unfold to_chars_integer.
  assert (Hrange : 0 <= uintptr_t_of value < 2 ^ 64).
  { unfold uintptr_t_of. apply Z.mod_pos_bound. lia. }
  pose proof (integer_text_length (uintptr_t_of value) 16 15) as Hlen.
  destruct (Nat.leb_spec (length (integer_text (uintptr_t_of value) 16)) 39)
    as [_|Hlong]; [done|].
  exfalso. assert (Z.abs (uintptr_t_of value) < 16 ^ Z.of_nat 16) by lia. lia.
Qed.

(** Every integer of at most 64 bits converts: a sign and 20 decimal digits
    at most. *)
Lemma int64_conversion_succeeds (buff : list byte) (value : Z) :
  - 2 ^ 63 <= value < 2 ^ 64 ->
  ec (to_chars buff 39%nat value).2 = errc_none.
Proof.
  intros Hv. simpl. unfold to_chars_integer.
  pose proof (integer_text_length value 10 19) as Hlen.
  destruct (Nat.leb_spec (length (integer_text value 10)) 39) as [_|Hlong]; [done|].
  exfalso. assert (Z.abs value < 10 ^ Z.of_nat 20) by lia. lia.
Qed.

(** The digits produced denote the value converted: the fuel given by
    [integer_text] is enough, for every base from 2 to 36. *)
Lemma char_digit_digit_char (d : Z) : 0 <= d < 36 -> char_digit (digit_char d) = d.
Proof.
  intros Hd.
  assert (Hall : forallb (fun n => char_digit (digit_char (Z.of_nat n)) =? Z.of_nat n)
                   (seq 0 36) = true) by (vm_compute; reflexivity).
  rewrite forallb_forall in Hall.
  specialize (Hall (Z.to_nat d)).
  rewrite Z2Nat.id in Hall by lia.
  apply Z.eqb_eq, Hall, in_seq. lia.
Qed.

Lemma log2_div_lt (base n : Z) :
  2 <= base -> 0 <= n -> n / base <> 0 -> Z.log2 (n / base) < Z.log2 n.
Proof.
  intros Hbase Hn Hq.
  assert (Hm : 0 < n / base) by (pose proof (Z.div_pos n base); lia).
  assert (Hle : base * (n / base) <= n) by (apply Z.mul_div_le; lia).
  pose proof (Z.log2_spec (n / base) Hm) as [Hlo _].
  pose proof (Z.log2_nonneg (n / base)) as Hnn.
  assert (Hpow : 2 ^ Z.succ (Z.log2 (n / base)) <= n).
  { rewrite Z.pow_succ_r by done. nia. }
  apply Z.log2_le_pow2 in Hpow; lia.
Qed.

Lemma to_chars_digits_value (fuel : nat) (base n : Z) (acc : list byte) :
  2 <= base <= 36 -> 0 <= n -> (Z.to_nat (Z.log2 n) < fuel)%nat ->
  exists digits,
    to_chars_digits fuel base n acc = digits ++ acc /\
    digits_value base digits = n.
Proof.
  intros Hbase. revert n acc.
  induction fuel as [|fuel IH]; intros n acc Hn Hfuel; [lia|]. simpl.
  pose proof (Z.mod_pos_bound n base ltac:(lia)) as Hr.
  pose proof (Z.div_mod n base ltac:(lia)) as Hdm.
  destruct (Z.eqb_spec (n / base) 0) as [Hq|Hq].
  - exists [digit_char (n mod base)]. split; [done|].
    unfold digits_value. simpl. rewrite char_digit_digit_char by lia. lia.
  - pose proof (log2_div_lt base n ltac:(lia) Hn Hq) as Hlog.
    pose proof (Z.log2_nonneg (n / base)) as Hnn.
    destruct (IH (n / base) (digit_char (n mod base) :: acc)) as (ds & Heq & Hval).
    { apply Z.div_pos; lia. }
    { lia. }
    exists (ds ++ [digit_char (n mod base)]). split.
    + by rewrite Heq, <- app_assoc.
    + unfold digits_value in *. rewrite foldl_app. simpl.
      rewrite Hval, char_digit_digit_char by lia. lia.
Qed.

Lemma integer_text_value (value base : Z) :
  2 <= base <= 36 ->
  integer_text value base =
    (if value <? 0 then ["-"%byte] else []) ++
    to_chars_digits (S (Z.to_nat (Z.log2 (Z.abs value)))) base (Z.abs value) [] /\
  digits_value base
    (to_chars_digits (S (Z.to_nat (Z.log2 (Z.abs value)))) base (Z.abs value) [])
    = Z.abs value.
Proof.
  intros Hbase. split; [done|].
  destruct (to_chars_digits_value (S (Z.to_nat (Z.log2 (Z.abs value)))) base
              (Z.abs value) [] Hbase) as (ds & Heq & Hval); [lia|lia|].
  rewrite Heq, app_nil_r. exact Hval.
Qed.

Example integer_text_samples :
  integer_text 0 10 = bytes_of "0" /\
  integer_text (- 2 ^ 63) 10 = bytes_of "-9223372036854775808" /\
  integer_text (2 ^ 64 - 1) 10 = bytes_of "18446744073709551615" /\
  integer_text (2 ^ 64 - 1) 16 = bytes_of "ffffffffffffffff" /\
  integer_text 48879 16 = bytes_of "beef".
Proof. repeat split; vm_compute; reflexivity. Qed.

(** ** The formatting operators *)

Section Formatting.
Context {S : Type} `{OStreamVirtual S}.

Lemma shl_view_cons {T} `{Character T} (c : T) (rest : list T) (self : S) :
  shl_view (c :: rest) self = write (as_bytes (c :: rest)) self.
Proof. done. Qed.

(** The character operator: nothing for the zero character, one write of
    the unit's bytes otherwise. *)
Lemma shl_char_cases {T} `{Character T} (value : T) (self : S) :
  shl_char value self =
    if decide (value = nul) then Ok self else write (unit_bytes value) self.
Proof.
  unfold shl_char, view_of_c_str. simpl.
  destruct (decide (value = nul)) as [->|Hne]; simpl; [done|].
  rewrite decide_True by done. simpl.
  unfold as_bytes. simpl. by rewrite app_nil_r.
Qed.

(** A failed conversion leaves the stream alone. *)
Lemma shl_converted_failed (buff : list byte) (r : to_chars_result) (self : S) :
  ec r <> errc_none -> shl_converted (buff, r) self = Ok self.
Proof. intros Hec. unfold shl_converted. by rewrite decide_False. Qed.

(** On a stream whose [write] and [flush] do nothing, no operator does
    anything. *)
Lemma shl_inert (x : Operand) (self : S) :
  (forall buff s, write buff s = Ok s) ->
  (forall s, flush s = Ok s) ->
  shl self x = Ok self.
Proof.
  intros Hwrite Hflush.
  assert (Hview : forall T (C : Character T) (str : list T), shl_view str self = Ok self).
  { intros T C [|c rest]; simpl; [done|apply Hwrite]. }
  destruct x as [tok|tok|T C value|T C value| value |T C str]; simpl.
  - apply Hflush.
  - unfold shl_Endl, shl_char. rewrite Hview. simpl. apply Hflush.
  - unfold shl_char. apply Hview.
  - unfold shl_number, shl_converted.
    destruct (to_chars _ _ value) as [buff r].
    destruct (decide (ec r = errc_none)); [apply Hview|done].
  - unfold shl_pointer, shl_converted.
    destruct (to_chars_integer _ _ _ _) as [buff r].
    destruct (decide (ec r = errc_none)); [apply Hview|done].
  - apply Hview.
Qed.

End Formatting.

(** ** Formatting scenarios *)

(** C6.  On any stream, formatting the integer -42 is one [write] of the
    three bytes "-42", and formatting a pointer whose address is 0xAB is one
    [write] of the two bytes "ab": base 16, lowercase, no prefix.  The
    pointer operator only uses the address.  On a plain [OStream] the sink
    therefore receives exactly those bytes. *)
Theorem format_minus_42_and_0xAB {S : Type} `{OStreamVirtual S} (self : S) (dev : IODevice) :
  shl self (OpNumber (-42)) = write (bytes_of "-42") self /\
  shl self (OpPointer 171) = write (bytes_of "ab") self /\
  shl (OStream.from dev) (OpNumber (-42)) =
    Ok (OStream.from (dev ++ [SinkWrite (bytes_of "-42")])) /\
  shl (OStream.from dev) (OpPointer 171) =
    Ok (OStream.from (dev ++ [SinkWrite (bytes_of "ab")])).
Proof.
  assert (Hnum : forall (S' : Type) (V : OStreamVirtual S') (s : S'),
             shl s (OpNumber (-42)) = write (bytes_of "-42") s).
  { intros S' V s. unfold shl, shl_number.
    set (conv := to_chars _ _ _). vm_compute in conv. subst conv.
    unfold shl_converted. rewrite decide_True by done.
    set (view := view_of_c_str _). vm_compute in view. subst view.
    reflexivity. }
  assert (Hptr : forall (S' : Type) (V : OStreamVirtual S') (s : S'),
             shl s (OpPointer 171) = write (bytes_of "ab") s).
  { intros S' V s. unfold shl, shl_pointer.
    set (conv := to_chars_integer _ _ _ _). vm_compute in conv. subst conv.
    unfold shl_converted. rewrite decide_True by done.
    set (view := view_of_c_str _). vm_compute in view. subst view.
    reflexivity. }
  split; [apply Hnum|]. split; [apply Hptr|].
  split; [rewrite Hnum|rewrite Hptr]; reflexivity.
Qed.

(** ** Conversion failures *)

(** C7.  When the text conversion of a numeric or pointer operand reports
    an error, the operator writes nothing and raises nothing: it returns the
    stream exactly as it was given. *)
Theorem conversion_failure_is_silent {S : Type} `{OStreamVirtual S}
    (self : S) (x : Operand) :
  conversion_failed x -> shl self x = Ok self.
Proof.
  intros (r & Hconv & Hec).
  destruct x as [tok|tok|T C value|T C value| value |T C str];
    simpl in Hconv; try discriminate; injection Hconv as <-; simpl.
  - unfold shl_number.
    destruct (to_chars _ _ value) as [buff r]. by apply shl_converted_failed.
  - unfold shl_pointer.
    destruct (to_chars_integer _ _ _ _) as [buff r]. by apply shl_converted_failed.
Qed.

Lemma conversion_failure_is_silent_witness :
  shl (OStream.from []) (OpNumber (- 2 ^ 127)) = Ok (OStream.from []).
Proof.
  apply (conversion_failure_is_silent (OStream.from []) (OpNumber (- 2 ^ 127))).
  eexists. split; [reflexivity|]. vm_compute. discriminate.
Defined.

(** ** Single characters *)

(** C8, as stated, fails: the zero character is wrapped like any other, but
    the buffer is then read as zero-terminated text, which is empty, and an
    empty view is not written.  On a plain [OStream] with an untouched sink,
    formatting the [char] 0 leaves the sink without any byte. *)
Lemma nul_char_emits_nothing :
  ~ (forall (value : byte) (self : OStream.t),
       exists self',
         shl self (OpChar value) = Ok self' /\
         sink_bytes (OStream.fd_ self') = sink_bytes (OStream.fd_ self) ++ [value]).
Proof.
  intros Hclaim.
  destruct (Hclaim "000"%byte (OStream.from [])) as (self' & Hshl & Hbytes).
  vm_compute in Hshl. injection Hshl as <-. discriminate Hbytes.
Qed.

(** C8, amended.  For a character of any character type, the operator wraps
    the value into a two-element buffer (value, zero) and writes it as
    zero-terminated text: a value other than zero is emitted as exactly that
    one character, by one [write] of its bytes, and the zero character emits
    nothing. *)
Theorem single_character {S : Type} `{OStreamVirtual S} {T : Type} `{Character T}
    (value : T) (self : S) :
  shl self (OpChar value) = shl_view (view_of_c_str [value; nul]) self /\
  shl self (OpChar value) =
    if decide (value = nul) then Ok self else write (unit_bytes value) self.
Proof.
  split; [done|]. apply shl_char_cases.
Qed.

(** ** The null stream *)

(** C10.  Whatever sequence of [write], [flush] and formatting operations
    is applied to a [NullOStream], the sequence returns without a failed
    assertion, the stream it returns is the stream it was given (so its
    device has received nothing), and the same holds for each operation on
    its own. *)
Theorem null_stream_discards (os : list Operation) (self : NullOStream.t) :
  operations os self = Ok self /\
  Forall (fun o => operation o self = Ok self) os /\
  forall self', operations os self = Ok self' ->
    sink_bytes (NullOStream.fd_ self') = sink_bytes (NullOStream.fd_ self).
Proof.
  assert (Hone : forall (o : Operation) (s : NullOStream.t), operation o s = Ok s).
  { intros [[buff|]|x] s; simpl; [done|done|].
    by apply shl_inert. }
  assert (Hall : operations os self = Ok self).
  { induction os as [|o os IH]; simpl; [done|]. rewrite Hone. simpl. exact IH. }
  split; [exact Hall|]. split.
  - apply Forall_forall. intros o _. apply Hone.
  - intros self' Hrun. rewrite Hall in Hrun. by injection Hrun as <-.
Qed.

(** * Further properties *)

(** ** Operators act through the virtual calls only *)

Lemma result_bind_Ok {A} (m : result A) : (m ≫= Ok) = m.
Proof. by destruct m. Qed.

Lemma result_bind_assoc {A B C} (m : result A) (f : A -> result B) (g : B -> result C) :
  ((m ≫= f) ≫= g) = (m ≫= fun a => f a ≫= g).
Proof. by destruct m. Qed.

Section Replay.
Context {S : Type} `{OStreamVirtual S}.

Lemma calls_app (a b : list Call) (self : S) :
  calls (a ++ b) self = (calls a self ≫= calls b).
Proof.
  revert self. induction a as [|c a IH]; intros self; simpl; [done|].
  destruct (call c self) as [mid|msg]; simpl; [apply IH|done].
Qed.

Lemma calls_singleton (c : Call) (self : S) : calls [c] self = call c self.
Proof. simpl. apply result_bind_Ok. Qed.

Lemma shl_view_replays {T} `{Character T} (str : list T) (self : S) :
  shl_view str self = calls (Recorder.seen (shl_view str ([] : Recorder.t))) self.
Proof.
  destruct str as [|c rest]; simpl; [done|].
  symmetry. apply result_bind_Ok.
Qed.

Lemma shl_converted_replays (conv : list byte * to_chars_result) (self : S) :
  shl_converted conv self =
  calls (Recorder.seen (shl_converted conv ([] : Recorder.t))) self.
Proof.
  destruct conv as [buff r]. unfold shl_converted.
  destruct (decide (ec r = errc_none)); [apply shl_view_replays|done].
Qed.

(** Whatever the stream, an operator does to it what replaying the
    virtual calls it makes would do. *)
Lemma shl_replays (x : Operand) (self : S) :
  shl self x = calls (operand_calls x) self.
Proof.
  unfold operand_calls.
  destruct x as [tok|tok|T C value|T C value| value |T C str]; simpl.
  - unfold shl_Flush. simpl. symmetry. apply result_bind_Ok.
  - unfold shl_Endl. rewrite !shl_char_cases.
    rewrite !decide_False by done. simpl.
    destruct (write _ self) as [mid|msg]; simpl; [|done].
    symmetry. apply result_bind_Ok.
  - unfold shl_char. apply shl_view_replays.
  - unfold shl_number. apply shl_converted_replays.
  - unfold shl_pointer. apply shl_converted_replays.
  - apply shl_view_replays.
Qed.

Lemma operation_replays (o : Operation) (self : S) :
  operation o self = calls (operation_calls o) self.
Proof.
  destruct o as [c|x]; simpl; [|apply shl_replays].
  symmetry. apply result_bind_Ok.
Qed.

Lemma operations_replay (os : list Operation) (self : S) :
  operations os self = calls (concat (map operation_calls os)) self.
Proof.
  revert self. induction os as [|o os IH]; intros self; simpl; [done|].
  rewrite calls_app, operation_replays.
  destruct (calls (operation_calls o) self) as [mid|msg]; simpl; [apply IH|done].
Qed.

End Replay.

(** ** The buffered stream refines the machine on pending bytes *)

Section Machine.
Variable N : Z.
Hypothesis N_size_t : 0 <= N < 2 ^ 64.

Implicit Types self : BufferedOStream.t N.

Lemma occupied_nil_iff self :
  buffer_ok self -> occupied self = [] <-> BufferedOStream.curr_ self = 0.
Proof.
  intros Hok. pose proof (occupied_length N self Hok) as Hlen.
  unfold size_bytes in Hlen. split.
  - intros Hnil. rewrite Hnil in Hlen. simpl in Hlen. lia.
  - intros Hz. destruct (occupied self); [done|]. simpl in Hlen. lia.
Qed.

Lemma flushed_hand_over self :
  buffer_ok self -> flushed self = hand_over (occupied self) ++ [SinkSync].
Proof.
  intros Hok. pose proof (occupied_nil_iff self Hok) as Hnil.
  destruct Hok as [Hc _]. unfold flushed, hand_over.
  destruct (Z.ltb_spec 0 (BufferedOStream.curr_ self)) as [Hpos|Hz].
  - destruct (occupied self) as [|b rest] eqn:Hocc; [|done].
    assert (BufferedOStream.curr_ self = 0) by by apply Hnil. lia.
  - rewrite (proj2 Hnil) by lia. done.
Qed.

(** One call: the sink receives exactly what [emit] says. *)
Lemma call_emits (c : Call) self :
  buffer_ok self ->
  exists self',
    call c self = Ok self' /\
    buffer_ok self' /\
    BufferedOStream.fd_ self' = BufferedOStream.fd_ self ++ emit N (occupied self) c /\
    occupied self' = accept N (occupied self) c.
Proof.
  intros Hok.
  destruct (call_sound N N_size_t c self Hok)
    as (self' & sent & Hcall & Hok' & Hfd & Hocc & _).
  exists self'. split; [done|]. split; [done|]. split; [|done].
  pose proof (occupied_length N self Hok) as Hlen.
  pose proof (flushed_hand_over self Hok) as Hfl.
  pose proof (occupied_nil_iff self Hok) as Hnil.
  destruct Hok as [Hc Hl].
  destruct c as [buff|]; simpl in Hcall |- *.
  - rewrite (write_cases N N_size_t buff self) in Hcall by done.
    destruct buff as [|b rest]; [injection Hcall as <-; by rewrite app_nil_r|].
    rewrite decide_False in Hcall by done.
    rewrite Hlen.
    destruct (decide (N < size_bytes (b :: rest))) as [Hbig|Hsmall].
    { destruct (Z.ltb_spec N (size_bytes (b :: rest))) as [_|]; [|lia].
      injection Hcall as <-. simpl. rewrite Hfl. by rewrite <- !app_assoc. }
    destruct (Z.ltb_spec N (size_bytes (b :: rest))) as [|_]; [lia|].
    destruct (decide (N - BufferedOStream.curr_ self < size_bytes (b :: rest)))
      as [Hfull|Hfree].
    + destruct (Z.ltb_spec (N - BufferedOStream.curr_ self) (size_bytes (b :: rest)))
        as [_|]; [|lia].
      injection Hcall as <-. simpl.
      destruct (occupied self) as [|o os] eqn:Hocc'; [|done].
      assert (BufferedOStream.curr_ self = 0) by by apply Hnil. lia.
    + destruct (Z.ltb_spec (N - BufferedOStream.curr_ self) (size_bytes (b :: rest)))
        as [|_]; [lia|].
      injection Hcall as <-. simpl. by rewrite app_nil_r.
  - rewrite flush_spec in Hcall by done. injection Hcall as <-. simpl.
    by rewrite Hfl.
Qed.

(** Any sequence of calls: the sink receives exactly [trace]. *)
Lemma calls_trace (cs : list Call) self :
  buffer_ok self ->
  exists self',
    calls cs self = Ok self' /\
    buffer_ok self' /\
    BufferedOStream.fd_ self' = BufferedOStream.fd_ self ++ trace N (occupied self) cs /\
    occupied self' = foldl (accept N) (occupied self) cs.
Proof.
  revert self. induction cs as [|c cs IH]; intros self Hok.
  - exists self. simpl. by rewrite app_nil_r.
  - destruct (call_emits c self Hok) as (mid & Hcall & Hmid & Hfd & Hocc).
    destruct (IH mid Hmid) as (self' & Hcalls & Hok' & Hfd' & Hocc').
    exists self'. simpl. rewrite Hcall. simpl.
    split; [done|]. split; [done|].
    split; [by rewrite Hfd', Hfd, Hocc, app_assoc|].
    by rewrite Hocc', Hocc.
Qed.

(** *** Facts about the machine *)

Lemma accept_bound (pending : list byte) (c : Call) :
  size_bytes pending <= N -> size_bytes (accept N pending c) <= N.
Proof.
  intros Hp. destruct c as [[|b rest]|]; simpl; [done| |unfold size_bytes; simpl; lia].
  destruct (Z.ltb_spec N (size_bytes (b :: rest))); [unfold size_bytes; simpl; lia|].
  destruct (Z.ltb_spec (N - size_bytes pending) (size_bytes (b :: rest))); [done|].
  rewrite size_bytes_app. lia.
Qed.

Lemma proper_request_mono (spans spans' : list (list byte)) (e : SinkCall) :
  spans ⊆ spans' -> proper_request N spans e -> proper_request N spans' e.
Proof.
  intros Hsub. destruct e as [bytes|]; simpl; [|done].
  intros [Hne [Hle|Hin]]; split; auto.
Qed.

Lemma hand_over_proper (spans : list (list byte)) (pending : list byte) :
  size_bytes pending <= N -> Forall (proper_request N spans) (hand_over pending).
Proof.
  intros Hp. destruct pending as [|b rest]; simpl; [done|].
  apply Forall_cons. split; [|done]. simpl. split; [done|by left].
Qed.

Lemma emit_proper (pending : list byte) (c : Call) :
  size_bytes pending <= N ->
  Forall (proper_request N [payload c]) (emit N pending c).
Proof.
  intros Hp. pose proof (hand_over_proper [payload c] pending Hp) as Hh.
  assert (Hsync : proper_request N [payload c] SinkSync) by exact I.
  destruct c as [[|b rest]|]; unfold emit.
  - apply Forall_nil_2.
  - destruct (N <? size_bytes (b :: rest)).
    + apply Forall_app. split; [exact Hh|].
      apply Forall_cons. split; [exact Hsync|].
      apply Forall_cons. split; [|apply Forall_nil_2].
      split; [discriminate|]. right. apply list_elem_of_singleton. reflexivity.
    + destruct (N - size_bytes pending <? size_bytes (b :: rest)).
      * apply Forall_app. split; [exact Hh|].
        apply Forall_cons. split; [exact Hsync|apply Forall_nil_2].
      * apply Forall_nil_2.
  - apply Forall_app. split; [exact Hh|].
    apply Forall_cons. split; [exact Hsync|apply Forall_nil_2].
Qed.

Lemma trace_proper (pending : list byte) (cs : list Call) :
  size_bytes pending <= N ->
  Forall (proper_request N (map payload cs)) (trace N pending cs).
Proof.
  revert pending. induction cs as [|c cs IH]; intros pending Hp; simpl;
    [apply Forall_nil_2|].
  apply Forall_app. split.
  - eapply Forall_impl; [apply emit_proper, Hp|].
    intros e. apply proper_request_mono.
    intros span Hin. apply list_elem_of_singleton in Hin as ->. apply list_elem_of_here.
  - eapply Forall_impl; [apply IH, accept_bound, Hp|].
    intros e. apply proper_request_mono.
    intros span Hin. by apply list_elem_of_further.
Qed.

Lemma nonempty_writes_cons (c : Call) (cs : list Call) :
  nonempty_writes (c :: cs) =
  ((match payload c with [] => 0 | _ => 1 end) + nonempty_writes cs)%nat.
Proof.
  unfold nonempty_writes. rewrite filter_cons.
  destruct (decide (payload c <> [])) as [Hne|He].
  - destruct (payload c); [done|]. done.
  - destruct (payload c); [done|]. exfalso. by apply He.
Qed.

Lemma emit_writes_bound (pending : list byte) (c : Call) :
  (length (sink_writes (emit N pending c))
   + length (hand_over (accept N pending c))
   <= length (hand_over pending)
      + match payload c with [] => 0 | _ => 1 end)%nat.
Proof.
  destruct c as [[|b rest]|]; unfold emit, accept, payload.
  - simpl. lia.
  - destruct (N <? size_bytes (b :: rest)).
    + rewrite sink_writes_app, length_app.
      destruct pending; simpl; lia.
    + destruct (N - size_bytes pending <? size_bytes (b :: rest)).
      * rewrite sink_writes_app, length_app.
        destruct pending; simpl; lia.
      * destruct pending; simpl; lia.
  - rewrite sink_writes_app, length_app.
    destruct pending; simpl; lia.
Qed.

Lemma trace_writes_bound (pending : list byte) (cs : list Call) :
  (length (sink_writes (trace N pending cs))
   + length (hand_over (foldl (accept N) pending cs))
   <= length (hand_over pending) + nonempty_writes cs)%nat.
Proof.
  revert pending. induction cs as [|c cs IH]; intros pending.
  - unfold nonempty_writes. simpl. lia.
  - rewrite nonempty_writes_cons. simpl trace. simpl foldl.
    rewrite sink_writes_app, length_app.
    pose proof (IH (accept N pending c)) as Hrest.
    pose proof (emit_writes_bound pending c) as Hstep.
    lia.
Qed.

End Machine.

(** ** The plain stream *)

Lemma OStream_calls (cs : list Call) (self : OStream.t) :
  calls cs self = Ok (OStream.from (OStream.fd_ self ++ map request_of cs)).
Proof.
  revert self. induction cs as [|c cs IH]; intros [dev]; simpl.
  - by rewrite app_nil_r.
  - destruct c as [buff|]; simpl; rewrite IH; simpl;
      unfold IODevice_write, flush_handle; by rewrite <- app_assoc.
Qed.

Lemma sink_bytes_requests (cs : list Call) :
  sink_bytes (map request_of cs) = concat (map payload cs).
Proof.
  induction cs as [|[buff|] cs IH]; simpl; [done| |done]. by rewrite IH.
Qed.

Lemma payload_operations (os : list Operation) :
  concat (map payload (concat (map operation_calls os)))
  = concat (map operation_bytes os).
Proof.
  induction os as [|o os IH]; simpl; [done|].
  by rewrite map_app, concat_app, IH.
Qed.

(** ** Operators on any stream *)

(** X1.  On every kind of stream, a formatting operator does exactly what
    replaying the virtual calls it makes would do, and those calls are at
    most one [write], followed by at most one [flush]. *)
Theorem operators_use_virtual_calls {S : Type} `{OStreamVirtual S}
    (x : Operand) (self : S) :
  shl self x = calls (operand_calls x) self /\
  exists w f : list Call,
    operand_calls x = w ++ f /\
    (w = [] \/ exists buff, w = [CallWrite buff]) /\
    (f = [] \/ f = [CallFlush]).
Proof.
  split; [apply shl_replays|].
  assert (Hview : forall T (C : Character T) (str : list T),
             exists w, Recorder.seen (shl_view str ([] : Recorder.t)) = w /\
                       (w = [] \/ exists buff, w = [CallWrite buff])).
  { intros T C [|c rest]; simpl; eauto. }
  assert (Hconv : forall conv,
             exists w, Recorder.seen (shl_converted conv ([] : Recorder.t)) = w /\
                       (w = [] \/ exists buff, w = [CallWrite buff])).
  { intros [buff r]. unfold shl_converted.
    destruct (decide (ec r = errc_none)); [apply Hview|eauto]. }
  unfold operand_calls.
  destruct x as [tok|tok|T C value|T C value| value |T C str]; simpl.
  - exists [], [CallFlush]. eauto.
  - eexists [_], [CallFlush]. split; [vm_compute; reflexivity|eauto].
  - destruct (Hview T C (view_of_c_str [value; nul])) as (w & Hw & Hshape).
    exists w, []. rewrite app_nil_r. eauto.
  - destruct (Hconv (to_chars (replicate 40 "000"%byte) (40 - 1)%nat value))
      as (w & Hw & Hshape).
    exists w, []. rewrite app_nil_r. eauto.
  - destruct (Hconv (to_chars_integer (replicate 40 "000"%byte) (40 - 1)%nat
                       (uintptr_t_of value) 16)) as (w & Hw & Hshape).
    exists w, []. rewrite app_nil_r. eauto.
  - destruct (Hview T C str) as (w & Hw & Hshape).
    exists w, []. rewrite app_nil_r. eauto.
Qed.

(** ** Operations on a buffered stream, up to a flush *)

Section Delivery.
Variable N : Z.
Hypothesis N_size_t : 0 <= N < 2 ^ 64.

Implicit Types self : BufferedOStream.t N.

Lemma calls_flush_delivers (cs : list Call) self :
  buffer_ok self ->
  exists self',
    calls (cs ++ [CallFlush]) self = Ok self' /\
    buffer_ok self' /\
    BufferedOStream.curr_ self' = 0 /\
    sink_bytes (BufferedOStream.fd_ self') =
      sink_bytes (BufferedOStream.fd_ self) ++ occupied self
      ++ concat (map payload cs).
Proof.
  intros Hok.
  destruct (calls_sound N N_size_t (cs ++ [CallFlush]) self Hok)
    as (self' & sent & Hcalls & Hok' & Hfd & Hocc & Hbytes).
  rewrite foldl_app in Hocc. simpl in Hocc.
  exists self'. split; [done|]. split; [done|].
  split; [by apply (occupied_nil_iff N self' Hok')|].
  rewrite Hocc, app_nil_r in Hbytes.
  rewrite Hfd, sink_bytes_app, Hbytes.
  rewrite map_app, concat_app. simpl. by rewrite !app_nil_r.
Qed.

Lemma operations_flush_delivers (os : list Operation) self :
  buffer_ok self ->
  exists self',
    operations (os ++ [Virtual CallFlush]) self = Ok self' /\
    buffer_ok self' /\
    BufferedOStream.curr_ self' = 0 /\
    sink_bytes (BufferedOStream.fd_ self') =
      sink_bytes (BufferedOStream.fd_ self) ++ occupied self
      ++ concat (map operation_bytes os).
Proof.
  intros Hok.
  destruct (calls_flush_delivers (concat (map operation_calls os)) self Hok)
    as (self' & Hcalls & Hok' & Hcurr & Hbytes).
  exists self'. rewrite operations_replay, map_app, concat_app. simpl.
  split; [exact Hcalls|]. split; [done|]. split; [done|].
  by rewrite Hbytes, payload_operations.
Qed.

End Delivery.

(** X2.  On a sound [BufferedOStream<N>], every sequence of [write] and
    [flush] calls returns, keeps the stream sound, and sends the device
    exactly the requests that the calls and the pending bytes determine:
    nothing else about the stream, such as what earlier writes left in the
    array beyond the cursor, has any influence. *)
Theorem buffered_requests_determined (N : Z) (cs : list Call)
    (self other : BufferedOStream.t N) :
  0 <= N < 2 ^ 64 ->
  buffer_ok self -> buffer_ok other ->
  occupied self = occupied other ->
  exists self' other' : BufferedOStream.t N,
    calls cs self = Ok self' /\
    calls cs other = Ok other' /\
    BufferedOStream.fd_ self' =
      BufferedOStream.fd_ self ++ trace N (occupied self) cs /\
    BufferedOStream.fd_ other' =
      BufferedOStream.fd_ other ++ trace N (occupied self) cs /\
    occupied self' = occupied other'.
Proof.
  intros HN Hok Hok' Hsame.
  destruct (calls_trace N HN cs self Hok) as (s1 & Hc1 & _ & Hfd1 & Hocc1).
  destruct (calls_trace N HN cs other Hok') as (s2 & Hc2 & _ & Hfd2 & Hocc2).
  exists s1, s2. rewrite <- Hsame in Hfd2, Hocc2.
  repeat (split; [done|]). by rewrite Hocc1, Hocc2.
Qed.

Lemma buffered_requests_determined_witness :
  let self : BufferedOStream.t 4 :=
    {| BufferedOStream.fd_ := [];
       BufferedOStream.buff_ := bytes_of "abXY";
       BufferedOStream.curr_ := 2 |} in
  let other : BufferedOStream.t 4 :=
    {| BufferedOStream.fd_ := [SinkSync];
       BufferedOStream.buff_ := bytes_of "ab" ++ replicate 2 "000"%byte;
       BufferedOStream.curr_ := 2 |} in
  let cs := [CallWrite (bytes_of "cde"); CallFlush] in
  exists self' other' : BufferedOStream.t 4,
    calls cs self = Ok self' /\
    calls cs other = Ok other' /\
    BufferedOStream.fd_ self' =
      BufferedOStream.fd_ self ++ trace 4 (occupied self) cs /\
    BufferedOStream.fd_ other' =
      BufferedOStream.fd_ other ++ trace 4 (occupied self) cs /\
    occupied self' = occupied other'.
Proof.
  intros self other cs.
  assert (HN : 0 <= 4 < 2 ^ 64) by lia.
  assert (Hok : buffer_ok self) by (split; simpl; [lia|reflexivity]).
  assert (Hok' : buffer_ok other) by (split; simpl; [lia|reflexivity]).
  assert (Hsame : occupied self = occupied other) by reflexivity.
  exact (buffered_requests_determined 4 cs self other HN Hok Hok' Hsame).
Defined.

(** X3.  A sound [BufferedOStream<N>] never asks its device for a write of
    zero bytes, and every write it does ask for is either at most [N] bytes
    long or is, unchanged, one of the spans the caller passed to [write]. *)
Theorem buffered_requests_proper (N : Z) (cs : list Call) (self : BufferedOStream.t N) :
  0 <= N < 2 ^ 64 ->
  buffer_ok self ->
  exists (self' : BufferedOStream.t N) (sent : list SinkCall),
    calls cs self = Ok self' /\
    BufferedOStream.fd_ self' = BufferedOStream.fd_ self ++ sent /\
    Forall (proper_request N (map payload cs)) sent.
Proof.
  intros HN Hok.
  destruct (calls_trace N HN cs self Hok) as (self' & Hcalls & _ & Hfd & _).
  exists self', (trace N (occupied self) cs).
  split; [done|]. split; [done|].
  pose proof (occupied_length N self Hok) as Hlen. destruct Hok as [Hc _].
  apply trace_proper; lia.
Qed.

Lemma buffered_requests_proper_witness :
  let cs := [CallWrite []; CallWrite (bytes_of "ab"); CallWrite (bytes_of "hello");
             CallFlush; CallFlush] in
  exists (self' : BufferedOStream.t 4) (sent : list SinkCall),
    calls cs (BufferedOStream.from 4 []) = Ok self' /\
    BufferedOStream.fd_ self' = BufferedOStream.fd_ (BufferedOStream.from 4 []) ++ sent /\
    Forall (proper_request 4 (map payload cs)) sent.
Proof.
  intros cs.
  assert (HN : 0 <= 4 < 2 ^ 64) by lia.
  assert (Hok : buffer_ok (BufferedOStream.from 4 []))
    by (split; simpl; [unfold BufferedOStream.begin_; lia|reflexivity]).
  exact (buffered_requests_proper 4 cs (BufferedOStream.from 4 []) HN Hok).
Defined.

(** X4.  Buffering never costs device writes: on a freshly bound
    [BufferedOStream<N>], any sequence of calls followed by a flush makes at
    most as many device writes as there were [write] calls with a non-empty
    span. *)
Theorem buffering_never_adds_writes (N : Z) (cs : list Call) (dev : IODevice) :
  0 <= N < 2 ^ 64 ->
  exists self' : BufferedOStream.t N,
    calls (cs ++ [CallFlush]) (BufferedOStream.from N dev) = Ok self' /\
    (length (sink_writes (BufferedOStream.fd_ self'))
     <= length (sink_writes dev) + nonempty_writes cs)%nat.
Proof.
  intros HN.
  destruct (from_sound N HN dev) as [Hok Hocc].
  destruct (calls_trace N HN (cs ++ [CallFlush]) _ Hok)
    as (self' & Hcalls & _ & Hfd & _).
  exists self'. split; [done|].
  rewrite Hfd, Hocc, sink_writes_app, length_app. simpl.
  pose proof (trace_writes_bound N [] (cs ++ [CallFlush])) as Hbound.
  assert (Hcount : nonempty_writes (cs ++ [CallFlush]) = nonempty_writes cs).
  { unfold nonempty_writes. rewrite filter_app, length_app.
    rewrite filter_cons, decide_False by (intros Hne; by apply Hne).
    simpl. lia. }
  rewrite Hcount in Hbound. simpl in Hbound. lia.
Qed.

Lemma buffering_never_adds_writes_witness :
  exists self' : BufferedOStream.t 8,
    calls ([CallWrite (bytes_of "AB"); CallWrite (bytes_of "CDEFG");
            CallWrite (bytes_of "HIJ")] ++ [CallFlush])
      (BufferedOStream.from 8 []) = Ok self' /\
    (length (sink_writes (BufferedOStream.fd_ self'))
     <= length (sink_writes []) +
        nonempty_writes [CallWrite (bytes_of "AB"); CallWrite (bytes_of "CDEFG");
                         CallWrite (bytes_of "HIJ")])%nat.
Proof.
  apply (buffering_never_adds_writes 8
           [CallWrite (bytes_of "AB"); CallWrite (bytes_of "CDEFG");
            CallWrite (bytes_of "HIJ")] []).
  lia.
Defined.

(** What the simplest operations ask a stream to deliver. *)
Lemma operation_bytes_cases :
  (forall c : Call, operation_bytes (Virtual c) = payload c) /\
  (forall tok, operation_bytes (Format (OpFlush tok)) = []) /\
  (forall tok, operation_bytes (Format (OpEndl tok)) = ["010"%byte]) /\
  (forall str : list byte, operation_bytes (Format (OpView str)) = str).
Proof.
  split; [|split; [|split]].
  - intros c. unfold operation_bytes. simpl. apply app_nil_r.
  - done.
  - done.
  - intros [|c rest]; [done|].
    unfold operation_bytes, operation_calls, operand_calls. simpl.
    rewrite app_nil_r. unfold as_bytes. f_equal.
    induction rest as [|d rest IH]; simpl; [done|]. by rewrite IH.
Qed.

(** X5.  Nothing is lost, duplicated or reordered: on a sound
    [BufferedOStream<N>], any sequence of [write] calls, [flush] calls and
    formatting operators followed by a flush returns with an empty buffer,
    and the bytes the device has received are those it had received before,
    then the bytes that were pending, then the bytes of the operations in
    the order they were made. *)
Theorem operations_then_flush_deliver (N : Z) (os : list Operation)
    (self : BufferedOStream.t N) :
  0 <= N < 2 ^ 64 ->
  buffer_ok self ->
  exists self' : BufferedOStream.t N,
    operations (os ++ [Virtual CallFlush]) self = Ok self' /\
    buffer_ok self' /\
    BufferedOStream.curr_ self' = 0 /\
    sink_bytes (BufferedOStream.fd_ self') =
      sink_bytes (BufferedOStream.fd_ self) ++ occupied self
      ++ concat (map operation_bytes os).
Proof.
  intros HN Hok. by apply operations_flush_delivers.
Qed.

Lemma operations_then_flush_deliver_witness :
  let self : BufferedOStream.t 4 :=
    {| BufferedOStream.fd_ := [SinkWrite (bytes_of "n=")];
       BufferedOStream.buff_ := bytes_of "xy" ++ replicate 2 "000"%byte;
       BufferedOStream.curr_ := 2 |} in
  let os := [Format (OpNumber (-42)); Virtual (CallWrite (bytes_of "hello"));
             Format (OpEndl Endl); Format (OpChar "!"%byte)] in
  exists self' : BufferedOStream.t 4,
    operations (os ++ [Virtual CallFlush]) self = Ok self' /\
    buffer_ok self' /\
    BufferedOStream.curr_ self' = 0 /\
    sink_bytes (BufferedOStream.fd_ self') =
      sink_bytes (BufferedOStream.fd_ self) ++ occupied self
      ++ concat (map operation_bytes os).
Proof.
  intros self os.
  assert (HN : 0 <= 4 < 2 ^ 64) by lia.
  assert (Hok : buffer_ok self) by (split; simpl; [lia|reflexivity]).
  exact (operations_then_flush_deliver 4 os self HN Hok).
Defined.

(** X6.  Buffering is invisible after a flush: bound to the same device, a
    [BufferedOStream<N>] and a plain [OStream] that are given the same
    operations followed by a flush both return, and their devices have
    received the same bytes. *)
Theorem buffered_agrees_with_plain (N : Z) (os : list Operation) (dev : IODevice) :
  0 <= N < 2 ^ 64 ->
  exists (buffered : BufferedOStream.t N) (plain : OStream.t),
    operations (os ++ [Virtual CallFlush]) (BufferedOStream.from N dev) = Ok buffered /\
    operations (os ++ [Virtual CallFlush]) (OStream.from dev) = Ok plain /\
    sink_bytes (BufferedOStream.fd_ buffered) = sink_bytes (OStream.fd_ plain).
Proof.
  intros HN.
  destruct (from_sound N HN dev) as [Hok Hocc].
  destruct (operations_flush_delivers N HN os _ Hok)
    as (buffered & Hrun & _ & _ & Hbytes).
  eexists buffered, _. split; [exact Hrun|].
  split; [rewrite operations_replay; apply OStream_calls|].
  rewrite Hbytes, Hocc. simpl.
  rewrite sink_bytes_app, sink_bytes_requests.
  rewrite map_app, concat_app, map_app, concat_app, payload_operations.
  simpl. by rewrite !app_nil_r.
Qed.

Lemma buffered_agrees_with_plain_witness :
  let os := [Format (OpNumber (-42)); Virtual (CallWrite (bytes_of "hello"));
             Format (OpEndl Endl); Format (OpPointer 171)] in
  exists (buffered : BufferedOStream.t 4) (plain : OStream.t),
    operations (os ++ [Virtual CallFlush]) (BufferedOStream.from 4 []) = Ok buffered /\
    operations (os ++ [Virtual CallFlush]) (OStream.from []) = Ok plain /\
    sink_bytes (BufferedOStream.fd_ buffered) = sink_bytes (OStream.fd_ plain).
Proof.
  intros os.
  apply (buffered_agrees_with_plain 4 os []). lia.
Defined.

(** X7.  [stream << Endl] on a sound [BufferedOStream<N>] returns with an
    empty buffer, and the device has then received everything that was
    pending followed by one newline byte. *)
Theorem endl_delivers_line (N : Z) (self : BufferedOStream.t N) :
  0 <= N < 2 ^ 64 ->
  buffer_ok self ->
  exists self' : BufferedOStream.t N,
    shl self (OpEndl Endl) = Ok self' /\
    BufferedOStream.curr_ self' = 0 /\
    sink_bytes (BufferedOStream.fd_ self') =
      sink_bytes (BufferedOStream.fd_ self) ++ occupied self ++ ["010"%byte].
Proof.
  intros HN Hok.
  destruct (calls_flush_delivers N HN [CallWrite ["010"%byte]] self Hok)
    as (self' & Hcalls & _ & Hcurr & Hbytes).
  exists self'. rewrite shl_replays. split; [exact Hcalls|]. by split.
Qed.

Lemma endl_delivers_line_witness :
  let self : BufferedOStream.t 4 :=
    {| BufferedOStream.fd_ := [];
       BufferedOStream.buff_ := bytes_of "abcd";
       BufferedOStream.curr_ := 4 |} in
  exists self' : BufferedOStream.t 4,
    shl self (OpEndl Endl) = Ok self' /\
    BufferedOStream.curr_ self' = 0 /\
    sink_bytes (BufferedOStream.fd_ self') =
      sink_bytes (BufferedOStream.fd_ self) ++ occupied self ++ ["010"%byte].
Proof.
  intros self.
  assert (HN : 0 <= 4 < 2 ^ 64) by lia.
  assert (Hok : buffer_ok self) by (split; simpl; [lia|reflexivity]).
  exact (endl_delivers_line 4 self HN Hok).
Defined.

(** ** Numbers and pointers: what is written *)

Lemma digit_char_nonzero (d : Z) : 0 <= d < 36 -> digit_char d <> "000"%byte.
Proof.
  intros Hd.
  assert (Hall : forallb (fun n => negb (Byte.eqb (digit_char (Z.of_nat n)) "000"%byte))
                   (seq 0 36) = true) by (vm_compute; reflexivity).
  rewrite forallb_forall in Hall.
  specialize (Hall (Z.to_nat d)). rewrite Z2Nat.id in Hall by lia.
  intros Heq. rewrite Heq in Hall.
  assert (Hin : In (Z.to_nat d) (seq 0 36)) by (apply in_seq; lia).
  specialize (Hall Hin). discriminate Hall.
Qed.

Lemma to_chars_digits_nonzero (fuel : nat) (base n : Z) (acc : list byte) :
  2 <= base <= 36 ->
  Forall (fun c => c <> "000"%byte) acc ->
  Forall (fun c => c <> "000"%byte) (to_chars_digits fuel base n acc).
Proof.
  intros Hbase. revert n acc.
  induction fuel as [|fuel IH]; intros n acc Hacc; simpl; [done|].
  assert (Hd : digit_char (n mod base) <> "000"%byte).
  { apply digit_char_nonzero. pose proof (Z.mod_pos_bound n base). lia. }
  destruct (n / base =? 0); [by apply Forall_cons|].
  apply IH. by apply Forall_cons.
Qed.

Lemma to_chars_digits_nonempty (fuel : nat) (base n : Z) (acc : list byte) :
  to_chars_digits (S fuel) base n acc <> [].
Proof.
  revert n acc. induction fuel as [|fuel IH]; intros n acc.
  - simpl. by destruct (n / base =? 0).
  - change (to_chars_digits (S (S fuel)) base n acc) with
      (if n / base =? 0 then digit_char (n mod base) :: acc
       else to_chars_digits (S fuel) base (n / base) (digit_char (n mod base) :: acc)).
    destruct (n / base =? 0); [done|apply IH].
Qed.

Lemma integer_text_shape (value base : Z) :
  2 <= base <= 36 ->
  integer_text value base <> [] /\
  Forall (fun c => c <> "000"%byte) (integer_text value base).
Proof.
  intros Hbase. unfold integer_text. split.
  - intros Hnil. apply app_eq_nil in Hnil as [_ Hnil].
    by apply to_chars_digits_nonempty in Hnil.
  - apply Forall_app. split.
    + destruct (value <? 0); [|done]. by apply Forall_cons.
    + by apply to_chars_digits_nonzero.
Qed.

Lemma c_str_length_terminated (text rest : list byte) :
  Forall (fun c => c <> "000"%byte) text ->
  c_str_length (text ++ "000"%byte :: rest) = length text.
Proof.
  induction 1 as [|c text Hc _ IH]; [reflexivity|].
  change (c_str_length ((c :: text) ++ "000"%byte :: rest))
    with (if decide (c = nul) then O
          else Datatypes.S (c_str_length (text ++ "000"%byte :: rest))).
  rewrite decide_False by exact Hc. rewrite IH. reflexivity.
Qed.

(** The conversion buffer, once the text is stored and the last cell is
    zeroed, reads back as the text. *)
Lemma conversion_buffer_view (text : list byte) :
  (length text <= 39)%nat ->
  Forall (fun c => c <> "000"%byte) text ->
  view_of_c_str
    (<[39%nat := "000"%byte]> (list_inserts 0 text (replicate 40 "000"%byte)))
  = text.
Proof.
  intros Hlen Hnz.
  assert (Hstored : list_inserts 0 text (replicate 40 "000"%byte)
                    = text ++ "000"%byte :: replicate (39 - length text) "000"%byte).
  { replace 40%nat with (length text + S (39 - length text))%nat at 1 by lia.
    rewrite replicate_add.
    rewrite list_inserts_0_r by (by rewrite length_replicate). done. }
  rewrite Hstored.
  rewrite list_insert_id.
  - unfold view_of_c_str. rewrite c_str_length_terminated by done.
    apply take_app_length.
  - rewrite lookup_app_r by lia.
    change ("000"%byte :: replicate (39 - length text) "000"%byte)
      with (replicate (S (39 - length text)) "000"%byte).
    apply lookup_replicate_2. lia.
Qed.

Lemma as_bytes_char (str : list byte) : as_bytes str = str.
Proof.
  unfold as_bytes. induction str as [|d l IH]; [done|].
  change (concat (map unit_bytes (d :: l))) with ([d] ++ concat (map unit_bytes l)).
  by rewrite IH.
Qed.

Section Numbers.
Context {S : Type} `{OStreamVirtual S}.

Lemma shl_converted_integer (value base : Z) (self : S) :
  2 <= base <= 36 ->
  shl_converted (to_chars_integer (replicate 40 "000"%byte) 39 value base) self =
    if (length (integer_text value base) <=? 39)%nat
    then write (integer_text value base) self
    else Ok self.
Proof.
  intros Hbase. unfold to_chars_integer.
  destruct (integer_text_shape value base Hbase) as [Hne Hnz].
  destruct (Nat.leb_spec (length (integer_text value base)) 39) as [Hfit|Hlong].
  - unfold shl_converted. rewrite decide_True by done.
    rewrite conversion_buffer_view by done.
    destruct (integer_text value base) as [|c rest] eqn:Htext; [done|].
    rewrite shl_view_cons. by rewrite as_bytes_char.
  - unfold shl_converted. by rewrite decide_False.
Qed.

End Numbers.

(** X8.  [stream << value] for an integer writes, in one [write], exactly
    the decimal text of the value (a minus sign if it is negative, then
    digits that denote its magnitude, at least one) when that text has at
    most 39 characters, and leaves the stream untouched otherwise. *)
Theorem integer_is_written_in_decimal {S : Type} `{OStreamVirtual S}
    (value : Z) (self : S) :
  shl self (OpNumber value) =
    (if (length (integer_text value 10) <=? 39)%nat
     then write (integer_text value 10) self
     else Ok self) /\
  exists digits : list byte,
    integer_text value 10 = (if value <? 0 then ["-"%byte] else []) ++ digits /\
    digits <> [] /\
    digits_value 10 digits = Z.abs value.
Proof.
  split.
  - unfold shl, shl_number. simpl. apply shl_converted_integer. lia.
  - destruct (integer_text_value value 10 ltac:(lia)) as [Htext Hval].
    eexists. split; [exact Htext|]. split; [|exact Hval].
    apply to_chars_digits_nonempty.
Qed.

(** X9.  An integer that fits in 64 bits, signed or unsigned, is never
    dropped: [stream << value] is one [write] of its decimal text, which is
    at most 20 characters long and contains no zero byte. *)
Theorem int64_is_always_written {S : Type} `{OStreamVirtual S}
    (value : Z) (self : S) :
  - 2 ^ 63 <= value < 2 ^ 64 ->
  shl self (OpNumber value) = write (integer_text value 10) self /\
  (0 < length (integer_text value 10) <= 20)%nat /\
  Forall (fun c => c <> "000"%byte) (integer_text value 10).
Proof.
  intros Hrange.
  destruct (integer_text_shape value 10 ltac:(lia)) as [Hne Hnz].
  assert (Hlen : (length (integer_text value 10) <= 20)%nat).
  { destruct (Z_lt_le_dec value 0) as [Hneg|Hpos].
    - pose proof (integer_text_length value 10 18 ltac:(lia)) as Hlen.
      apply Hlen. lia.
    - unfold integer_text.
      destruct (Z.ltb_spec value 0) as [|_]; [lia|]. simpl.
      pose proof (to_chars_digits_length
        (Datatypes.S (Z.to_nat (Z.log2 (Z.abs value)))) 10 (Z.abs value) [] 19
        ltac:(lia)) as Hd.
      simpl length in Hd. rewrite Nat.add_0_r in Hd. apply Hd. lia. }
  split; [|split; [|done]].
  - unfold shl, shl_number. simpl. rewrite shl_converted_integer by lia.
    destruct (Nat.leb_spec (length (integer_text value 10)) 39); [done|lia].
  - split; [|done]. destruct (integer_text value 10); [done|simpl; lia].
Qed.

Lemma int64_is_always_written_witness :
  shl (OStream.from []) (OpNumber (- 2 ^ 63)) =
    write (integer_text (- 2 ^ 63) 10) (OStream.from []) /\
  (0 < length (integer_text (- 2 ^ 63) 10) <= 20)%nat /\
  Forall (fun c => c <> "000"%byte) (integer_text (- 2 ^ 63) 10).
Proof.
  apply (int64_is_always_written (- 2 ^ 63) (OStream.from [])). lia.
Defined.

(** X10.  A pointer is never dropped: whatever the address,
    [stream << pointer] is one [write] of the address in lowercase base 16
    without prefix, between 1 and 16 characters that denote the address. *)
Theorem pointer_is_always_written {S : Type} `{OStreamVirtual S}
    (address : Z) (self : S) :
  shl self (OpPointer address) =
    write (integer_text (uintptr_t_of address) 16) self /\
  (0 < length (integer_text (uintptr_t_of address) 16) <= 16)%nat /\
  digits_value 16 (integer_text (uintptr_t_of address) 16) = uintptr_t_of address.
Proof.
  assert (Hrange : 0 <= uintptr_t_of address < 2 ^ 64).
  { unfold uintptr_t_of. apply Z.mod_pos_bound. lia. }
  destruct (integer_text_shape (uintptr_t_of address) 16 ltac:(lia)) as [Hne Hnz].
  destruct (integer_text_value (uintptr_t_of address) 16 ltac:(lia)) as [Htext Hval].
  assert (Hdigits : integer_text (uintptr_t_of address) 16 =
            to_chars_digits
              (Datatypes.S (Z.to_nat (Z.log2 (Z.abs (uintptr_t_of address))))) 16
              (Z.abs (uintptr_t_of address)) []).
  { rewrite Htext. destruct (Z.ltb_spec (uintptr_t_of address) 0); [lia|done]. }
  assert (Hlen : (length (integer_text (uintptr_t_of address) 16) <= 16)%nat).
  { rewrite Hdigits.
    pose proof (to_chars_digits_length
      (Datatypes.S (Z.to_nat (Z.log2 (Z.abs (uintptr_t_of address))))) 16
      (Z.abs (uintptr_t_of address)) [] 15 ltac:(lia)) as Hd.
    simpl length in Hd. rewrite Nat.add_0_r in Hd. apply Hd. lia. }
  split; [|split].
  - unfold shl, shl_pointer. rewrite shl_converted_integer by lia.
    destruct (Nat.leb_spec (length (integer_text (uintptr_t_of address) 16)) 39);
      [done|lia].
  - split; [|done].
    destruct (integer_text (uintptr_t_of address) 16); [done|simpl; lia].
  - rewrite Hdigits, Hval. lia.
Qed.

(** * [Maybe<T>] *)

Section MaybeFacts.
Context {T : Type}.
Variable moved : T -> T.

Implicit Types (w : Maybe.world T) (m : Maybe.t T) (this other : nat) (x : T).

Local Abbreviation empty_slot := {| Maybe.has_value_ := false; Maybe.value_ := None |}.
Local Abbreviation full_slot x := {| Maybe.has_value_ := true; Maybe.value_ := Some x |}.

Ltac run_maybe :=
  repeat first
    [ progress cbv beta iota zeta delta
        [Maybe.bind Maybe.ret Maybe.get Maybe.put Maybe.lift Maybe.undefined
         Maybe.set_has_value Maybe.set_storage Maybe.log_destroyed
         Maybe.log_leaked Maybe.ignore ASSERT negb]
    | progress cbn [Maybe.objs Maybe.destroyed Maybe.leaked
                    Maybe.has_value_ Maybe.value_]
    | rewrite lookup_insert_eq
    | rewrite insert_insert_eq
    | rewrite lookup_insert_ne by congruence
    | match goal with H : Maybe.objs _ !! _ = Some _ |- _ => rewrite H end ].

Lemma slot_ok_cases m :
  Maybe.slot_ok T m ->
  (exists x, m = full_slot x) \/ m = empty_slot.
Proof.
  destruct m as [b [x|]]; unfold Maybe.slot_ok; simpl; intros ->.
  - left. by exists x.
  - by right.
Qed.

Lemma value_full w this x :
  Maybe.objs w !! this = Some (full_slot x) ->
  Maybe.value T this w = Maybe.Ret x w.
Proof. intros Hthis. unfold Maybe.value. by run_maybe. Qed.

Lemma value_empty w this :
  Maybe.objs w !! this = Some empty_slot ->
  Maybe.value T this w = Maybe.Abort "Maybe has no contained type!".
Proof. intros Hthis. unfold Maybe.value. by run_maybe. Qed.

Lemma release_value_full w this x :
  Maybe.objs w !! this = Some (full_slot x) ->
  Maybe.release_value T moved this w =
  Maybe.Ret x {| Maybe.objs := <[this := empty_slot]> (Maybe.objs w);
                 Maybe.destroyed := Maybe.destroyed w ++ [moved x];
                 Maybe.leaked := Maybe.leaked w |}.
Proof.
  intros Hthis.
  unfold Maybe.release_value, Maybe.destroy_value, Maybe.value. by run_maybe.
Qed.

Lemma release_value_empty w this :
  Maybe.objs w !! this = Some empty_slot ->
  Maybe.release_value T moved this w = Maybe.Abort "Maybe has no contained type!".
Proof. intros Hthis. unfold Maybe.release_value. by run_maybe. Qed.

Lemma clear_full w this x :
  Maybe.objs w !! this = Some (full_slot x) ->
  Maybe.clear T this w =
  Maybe.Ret () {| Maybe.objs := <[this := empty_slot]> (Maybe.objs w);
                  Maybe.destroyed := Maybe.destroyed w ++ [x];
                  Maybe.leaked := Maybe.leaked w |}.
Proof.
  intros Hthis. unfold Maybe.clear, Maybe.destroy_value, Maybe.value. by run_maybe.
Qed.


(** The objects a slot holds: one or none. *)
Lemma emplace_effect w this m x :
  Maybe.objs w !! this = Some m -> Maybe.slot_ok T m ->
  Maybe.emplace T this x w =
  Maybe.Ret () {| Maybe.objs := <[this := full_slot x]> (Maybe.objs w);
                  Maybe.destroyed := Maybe.destroyed w ++ option_list (Maybe.value_ m);
                  Maybe.leaked := Maybe.leaked w |}.
Proof.
  intros Hthis Hok.
  destruct (slot_ok_cases m Hok) as [[y ->]| ->];
    unfold Maybe.emplace, Maybe.clear, Maybe.destroy_value, Maybe.value,
      Maybe.placement_new; run_maybe; simpl; by rewrite ?app_nil_r.
Qed.

Lemma value_or_effect w this m other_value :
  Maybe.objs w !! this = Some m -> Maybe.slot_ok T m ->
  Maybe.value_or T this other_value w =
  Maybe.Ret (default other_value (Maybe.value_ m)) w.
Proof.
  intros Hthis Hok.
  destruct (slot_ok_cases m Hok) as [[y ->]| ->];
    unfold Maybe.value_or, Maybe.value; by run_maybe.
Qed.

Lemma assign_move_full w this other m x :
  other <> this ->
  Maybe.objs w !! this = Some m -> Maybe.slot_ok T m ->
  Maybe.objs w !! other = Some (full_slot x) ->
  Maybe.assign_move T moved this other w =
  Maybe.Ret () {| Maybe.objs :=
                    <[this := full_slot x]> (<[other := empty_slot]> (Maybe.objs w));
                  Maybe.destroyed :=
                    Maybe.destroyed w ++ option_list (Maybe.value_ m) ++ [moved x];
                  Maybe.leaked := Maybe.leaked w |}.
Proof.
  intros Hne Hthis Hok Hother.
  unfold Maybe.assign_move. rewrite decide_False by done.
  destruct (slot_ok_cases m Hok) as [[y ->]| ->];
    unfold Maybe.clear, Maybe.release_value, Maybe.destroy_value, Maybe.value,
      Maybe.placement_new; run_maybe; simpl;
    rewrite <- ?app_assoc; simpl; do 2 f_equal;
    rewrite (insert_insert_ne _ other this) by done;
    by rewrite insert_insert_eq.
Qed.


Lemma assign_copy_full w this other m x :
  other <> this ->
  Maybe.objs w !! this = Some m -> Maybe.slot_ok T m ->
  Maybe.objs w !! other = Some (full_slot x) ->
  Maybe.assign_copy T this other w =
  Maybe.Ret () {| Maybe.objs := <[this := full_slot x]> (Maybe.objs w);
                  Maybe.destroyed := Maybe.destroyed w ++ option_list (Maybe.value_ m);
                  Maybe.leaked := Maybe.leaked w |}.
Proof.
  intros Hne Hthis Hok Hother.
  unfold Maybe.assign_copy. rewrite decide_False by done.
  destruct (slot_ok_cases m Hok) as [[y ->]| ->];
    unfold Maybe.clear, Maybe.destroy_value, Maybe.value, Maybe.placement_new;
    run_maybe; simpl; by rewrite ?app_nil_r.
Qed.




Lemma deref_empty w this :
  Maybe.objs w !! this = Some empty_slot ->
  Maybe.deref T this w = Maybe.Abort "Bad Maybe access!".
Proof. intros Hthis. unfold Maybe.deref. by run_maybe. Qed.







(** Releasing the value of a full object. *)
Lemma release_then_access w this x (fallback : T) :
  Maybe.objs w !! this = Some (full_slot x) ->
  exists w',
    Maybe.release_value T moved this w = Maybe.Ret x w' /\
    Maybe.objs w' = <[this := empty_slot]> (Maybe.objs w) /\
    Maybe.destroyed w' = Maybe.destroyed w ++ [moved x] /\
    Maybe.leaked w' = Maybe.leaked w /\
    Maybe.value T this w' = Maybe.Abort "Maybe has no contained type!" /\
    Maybe.release_value T moved this w' = Maybe.Abort "Maybe has no contained type!" /\
    Maybe.deref T this w' = Maybe.Abort "Bad Maybe access!" /\
    Maybe.value_or T this fallback w' = Maybe.Ret fallback w'.
Proof.
  intros Hthis. eexists. split; [by apply release_value_full|]. simpl.
  repeat (split; [done|]).
  split; [apply value_empty; simpl; apply lookup_insert_eq|].
  split; [apply release_value_empty; simpl; apply lookup_insert_eq|].
  split; [apply deref_empty; simpl; apply lookup_insert_eq|].
  rewrite (value_or_effect _ this empty_slot); [done| |done].
  simpl. apply lookup_insert_eq.
Qed.

(** A [Maybe] built around a value at a free address, then destroyed. *)
Lemma construct_destruct w this x :
  Maybe.objs w !! this = None ->
  exists w1,
    Maybe.construct_value T this x w = Maybe.Ret () w1 /\
    Maybe.objs w1 = <[this := full_slot x]> (Maybe.objs w) /\
    Maybe.destroyed w1 = Maybe.destroyed w /\
    Maybe.leaked w1 = Maybe.leaked w /\
    Maybe.destruct_ T this w1 =
      Maybe.Ret () {| Maybe.objs := Maybe.objs w;
                      Maybe.destroyed := Maybe.destroyed w ++ [x];
                      Maybe.leaked := Maybe.leaked w |}.
Proof.
  intros Hfree. eexists. split.
  { unfold Maybe.construct_value, Maybe.construct_empty, Maybe.placement_new.
    run_maybe. reflexivity. }
  simpl. repeat (split; [done|]).
  unfold Maybe.destruct_, Maybe.bind.
  rewrite (clear_full _ this x) by (simpl; apply lookup_insert_eq).
  simpl. rewrite insert_insert_eq, delete_insert_id by done. done.
Qed.

(** Move construction from a full object. *)
Lemma construct_move_full w this other x :
  other <> this ->
  Maybe.objs w !! other = Some (full_slot x) ->
  Maybe.construct_move T moved this other w =
  Maybe.Ret () {| Maybe.objs :=
                    <[this := full_slot x]> (<[other := empty_slot]> (Maybe.objs w));
                  Maybe.destroyed := Maybe.destroyed w ++ [moved x];
                  Maybe.leaked := Maybe.leaked w |}.
Proof.
  intros Hne Hother.
  unfold Maybe.construct_move, Maybe.construct_empty, Maybe.release_value,
    Maybe.destroy_value, Maybe.value, Maybe.placement_new.
  run_maybe. simpl. do 2 f_equal.
  rewrite (insert_insert_ne _ other this) by done.
  by rewrite insert_insert_eq.
Qed.

End MaybeFacts.

Local Abbreviation empty_maybe := {| Maybe.has_value_ := false; Maybe.value_ := None |}.
Local Abbreviation full_maybe x := {| Maybe.has_value_ := true; Maybe.value_ := Some x |}.



(** X12.  Move assignment between two different [Maybe] objects, the
    source holding [x]: the target ends up holding [x], the source ends up
    empty, no other object changes, the target's previous value (if it had
    one) is destroyed, then the moved-from source object is destroyed, and
    nothing is overwritten alive. *)
Theorem maybe_move_assignment {T : Type} (moved : T -> T) (w : Maybe.world T)
    (this other : nat) (m : Maybe.t T) (x : T) :
  other <> this ->
  Maybe.objs w !! this = Some m -> Maybe.slot_ok T m ->
  Maybe.objs w !! other = Some (full_maybe x) ->
  exists w',
    Maybe.assign_move T moved this other w = Maybe.Ret () w' /\
    Maybe.objs w' !! this = Some (full_maybe x) /\
    Maybe.objs w' !! other = Some empty_maybe /\
    (forall a, a <> this -> a <> other -> Maybe.objs w' !! a = Maybe.objs w !! a) /\
    Maybe.destroyed w' =
      Maybe.destroyed w ++ option_list (Maybe.value_ m) ++ [moved x] /\
    Maybe.leaked w' = Maybe.leaked w.
Proof.
  intros Hne Hthis Hok Hother.
  eexists. split; [by apply assign_move_full|]. simpl.
  split; [apply lookup_insert_eq|].
  split; [rewrite lookup_insert_ne by done; apply lookup_insert_eq|].
  split; [|done].
  intros a Ha Hb. by rewrite !lookup_insert_ne by done.
Qed.

Lemma maybe_move_assignment_witness :
  let w : Maybe.world nat :=
    {| Maybe.objs := <[1%nat := full_maybe 7%nat]> (<[2%nat := full_maybe 5%nat]> ∅);
       Maybe.destroyed := [];
       Maybe.leaked := [] |} in
  exists w',
    Maybe.assign_move nat (fun _ => 0%nat) 2 1 w = Maybe.Ret () w' /\
    Maybe.objs w' !! 2%nat = Some (full_maybe 7%nat) /\
    Maybe.objs w' !! 1%nat = Some empty_maybe /\
    (forall a, a <> 2%nat -> a <> 1%nat -> Maybe.objs w' !! a = Maybe.objs w !! a) /\
    Maybe.destroyed w' =
      Maybe.destroyed w ++ option_list (Maybe.value_ (full_maybe 5%nat)) ++ [0%nat] /\
    Maybe.leaked w' = Maybe.leaked w.
Proof.
  intros w.
  assert (Hne : 1%nat <> 2%nat) by lia.
  assert (Hthis : Maybe.objs w !! 2%nat = Some (full_maybe 5%nat)) by reflexivity.
  assert (Hok : Maybe.slot_ok nat (full_maybe 5%nat)) by reflexivity.
  assert (Hother : Maybe.objs w !! 1%nat = Some (full_maybe 7%nat)) by reflexivity.
  exact (maybe_move_assignment (fun _ => 0%nat) w 2 1 (full_maybe 5%nat) 7%nat
           Hne Hthis Hok Hother).
Defined.

(** X13.  Copy assignment between two different [Maybe] objects, the source
    holding [x]: the target ends up holding [x], the source is untouched,
    no other object changes, and the only object destroyed is the target's
    previous value, if it had one. *)
Theorem maybe_copy_assignment {T : Type} (w : Maybe.world T)
    (this other : nat) (m : Maybe.t T) (x : T) :
  other <> this ->
  Maybe.objs w !! this = Some m -> Maybe.slot_ok T m ->
  Maybe.objs w !! other = Some (full_maybe x) ->
  exists w',
    Maybe.assign_copy T this other w = Maybe.Ret () w' /\
    Maybe.objs w' !! this = Some (full_maybe x) /\
    (forall a, a <> this -> Maybe.objs w' !! a = Maybe.objs w !! a) /\
    Maybe.destroyed w' = Maybe.destroyed w ++ option_list (Maybe.value_ m) /\
    Maybe.leaked w' = Maybe.leaked w.
Proof.
  intros Hne Hthis Hok Hother.
  eexists. split; [by apply assign_copy_full|]. simpl.
  split; [apply lookup_insert_eq|]. split; [|done].
  intros a Ha. by rewrite lookup_insert_ne.
Qed.

Lemma maybe_copy_assignment_witness :
  let w : Maybe.world nat :=
    {| Maybe.objs := <[1%nat := full_maybe 7%nat]> (<[2%nat := empty_maybe]> ∅);
       Maybe.destroyed := [];
       Maybe.leaked := [] |} in
  exists w',
    Maybe.assign_copy nat 2 1 w = Maybe.Ret () w' /\
    Maybe.objs w' !! 2%nat = Some (full_maybe 7%nat) /\
    (forall a, a <> 2%nat -> Maybe.objs w' !! a = Maybe.objs w !! a) /\
    Maybe.destroyed w' = Maybe.destroyed w ++ option_list (Maybe.value_ (empty_maybe : Maybe.t nat)) /\
    Maybe.leaked w' = Maybe.leaked w.
Proof.
  intros w.
  assert (Hne : 1%nat <> 2%nat) by lia.
  assert (Hthis : Maybe.objs w !! 2%nat = Some empty_maybe) by reflexivity.
  assert (Hok : Maybe.slot_ok nat empty_maybe) by reflexivity.
  assert (Hother : Maybe.objs w !! 1%nat = Some (full_maybe 7%nat)) by reflexivity.
  exact (maybe_copy_assignment w 2 1 empty_maybe 7%nat Hne Hthis Hok Hother).
Defined.

(** X14.  [release_value] on an object holding [x] returns [x], destroys
    the moved-from object it leaves behind and empties the [Maybe].  From
    then on [value] and [release_value] stop with "Maybe has no contained
    type!", [operator*] and [operator->] stop with "Bad Maybe access!", and
    [value_or] returns its fallback. *)
Theorem maybe_release_value {T : Type} (moved : T -> T) (w : Maybe.world T)
    (this : nat) (x fallback : T) :
  Maybe.objs w !! this = Some (full_maybe x) ->
  exists w',
    Maybe.release_value T moved this w = Maybe.Ret x w' /\
    Maybe.objs w' = <[this := empty_maybe]> (Maybe.objs w) /\
    Maybe.destroyed w' = Maybe.destroyed w ++ [moved x] /\
    Maybe.leaked w' = Maybe.leaked w /\
    Maybe.value T this w' = Maybe.Abort "Maybe has no contained type!" /\
    Maybe.release_value T moved this w' = Maybe.Abort "Maybe has no contained type!" /\
    Maybe.deref T this w' = Maybe.Abort "Bad Maybe access!" /\
    Maybe.value_or T this fallback w' = Maybe.Ret fallback w'.
Proof. apply release_then_access. Qed.

Lemma maybe_release_value_witness :
  let w : Maybe.world nat :=
    {| Maybe.objs := <[1%nat := full_maybe 7%nat]> ∅;
       Maybe.destroyed := [];
       Maybe.leaked := [] |} in
  exists w',
    Maybe.release_value nat (fun _ => 0%nat) 1 w = Maybe.Ret 7%nat w' /\
    Maybe.objs w' = <[1%nat := empty_maybe]> (Maybe.objs w) /\
    Maybe.destroyed w' = Maybe.destroyed w ++ [0%nat] /\
    Maybe.leaked w' = Maybe.leaked w /\
    Maybe.value nat 1 w' = Maybe.Abort "Maybe has no contained type!" /\
    Maybe.release_value nat (fun _ => 0%nat) 1 w' =
      Maybe.Abort "Maybe has no contained type!" /\
    Maybe.deref nat 1 w' = Maybe.Abort "Bad Maybe access!" /\
    Maybe.value_or nat 1 3%nat w' = Maybe.Ret 3%nat w'.
Proof.
  intros w.
  assert (Hthis : Maybe.objs w !! 1%nat = Some (full_maybe 7%nat)) by reflexivity.
  exact (maybe_release_value (fun _ => 0%nat) w 1 7%nat 3%nat Hthis).
Defined.

(** X15.  [emplace] on a sound object replaces what it holds: afterwards
    [value] returns the new value, the previous value (if there was one) has
    been destroyed, exactly once, and nothing was overwritten alive. *)
Theorem maybe_emplace {T : Type} (w : Maybe.world T) (this : nat)
    (m : Maybe.t T) (x : T) :
  Maybe.objs w !! this = Some m -> Maybe.slot_ok T m ->
  exists w',
    Maybe.emplace T this x w = Maybe.Ret () w' /\
    Maybe.value T this w' = Maybe.Ret x w' /\
    (forall a, a <> this -> Maybe.objs w' !! a = Maybe.objs w !! a) /\
    Maybe.destroyed w' = Maybe.destroyed w ++ option_list (Maybe.value_ m) /\
    Maybe.leaked w' = Maybe.leaked w.
Proof.
  intros Hthis Hok.
  eexists. split; [by apply emplace_effect|].
  split; [apply value_full; simpl; apply lookup_insert_eq|]. simpl.
  split; [|done]. intros a Ha. by rewrite lookup_insert_ne.
Qed.

Lemma maybe_emplace_witness :
  let w : Maybe.world nat :=
    {| Maybe.objs := <[1%nat := full_maybe 7%nat]> ∅;
       Maybe.destroyed := [];
       Maybe.leaked := [] |} in
  exists w',
    Maybe.emplace nat 1 9%nat w = Maybe.Ret () w' /\
    Maybe.value nat 1 w' = Maybe.Ret 9%nat w' /\
    (forall a, a <> 1%nat -> Maybe.objs w' !! a = Maybe.objs w !! a) /\
    Maybe.destroyed w' = Maybe.destroyed w ++ option_list (Maybe.value_ (full_maybe 7%nat)) /\
    Maybe.leaked w' = Maybe.leaked w.
Proof.
  intros w.
  assert (Hthis : Maybe.objs w !! 1%nat = Some (full_maybe 7%nat)) by reflexivity.
  assert (Hok : Maybe.slot_ok nat (full_maybe 7%nat)) by reflexivity.
  exact (maybe_emplace w 1 (full_maybe 7%nat) 9%nat Hthis Hok).
Defined.

(** X16.  A [Maybe] constructed around a value at a free address and then
    destroyed leaves the other objects as they were, and the value it held
    has been destroyed exactly once. *)
Theorem maybe_construct_then_destroy {T : Type} (w : Maybe.world T) (this : nat) (x : T) :
  Maybe.objs w !! this = None ->
  exists w1,
    Maybe.construct_value T this x w = Maybe.Ret () w1 /\
    Maybe.objs w1 = <[this := full_maybe x]> (Maybe.objs w) /\
    Maybe.destroyed w1 = Maybe.destroyed w /\
    Maybe.leaked w1 = Maybe.leaked w /\
    Maybe.destruct_ T this w1 =
      Maybe.Ret () {| Maybe.objs := Maybe.objs w;
                      Maybe.destroyed := Maybe.destroyed w ++ [x];
                      Maybe.leaked := Maybe.leaked w |}.
Proof. apply construct_destruct. Qed.

Lemma maybe_construct_then_destroy_witness :
  let w : Maybe.world nat :=
    {| Maybe.objs := <[1%nat := full_maybe 7%nat]> ∅;
       Maybe.destroyed := [];
       Maybe.leaked := [] |} in
  exists w1,
    Maybe.construct_value nat 2 5%nat w = Maybe.Ret () w1 /\
    Maybe.objs w1 = <[2%nat := full_maybe 5%nat]> (Maybe.objs w) /\
    Maybe.destroyed w1 = Maybe.destroyed w /\
    Maybe.leaked w1 = Maybe.leaked w /\
    Maybe.destruct_ nat 2 w1 =
      Maybe.Ret () {| Maybe.objs := Maybe.objs w;
                      Maybe.destroyed := Maybe.destroyed w ++ [5%nat];
                      Maybe.leaked := Maybe.leaked w |}.
Proof.
  intros w.
  assert (Hfree : Maybe.objs w !! 2%nat = None) by reflexivity.
  exact (maybe_construct_then_destroy w 2 5%nat Hfree).
Defined.

(** X17.  Move construction, at a free address, from a [Maybe] holding
    [x]: the new object holds [x], the source is left empty, and the moved-from source object
    is the one object destroyed. *)
Theorem maybe_move_construction {T : Type} (moved : T -> T) (w : Maybe.world T)
    (this other : nat) (x : T) :
  Maybe.objs w !! this = None ->
  Maybe.objs w !! other = Some (full_maybe x) ->
  exists w',
    Maybe.construct_move T moved this other w = Maybe.Ret () w' /\
    Maybe.objs w' !! this = Some (full_maybe x) /\
    Maybe.objs w' !! other = Some empty_maybe /\
    (forall a, a <> this -> a <> other -> Maybe.objs w' !! a = Maybe.objs w !! a) /\
    Maybe.destroyed w' = Maybe.destroyed w ++ [moved x] /\
    Maybe.leaked w' = Maybe.leaked w.
Proof.
  intros Hfree Hother.
  assert (Hne : other <> this) by (intros ->; congruence).
  eexists. split; [by apply construct_move_full|]. simpl.
  split; [apply lookup_insert_eq|].
  split; [rewrite lookup_insert_ne by done; apply lookup_insert_eq|].
  split; [|done].
  intros a Ha Hb. by rewrite !lookup_insert_ne by done.
Qed.

Lemma maybe_move_construction_witness :
  let w : Maybe.world nat :=
    {| Maybe.objs := <[1%nat := full_maybe 7%nat]> ∅;
       Maybe.destroyed := [];
       Maybe.leaked := [] |} in
  exists w',
    Maybe.construct_move nat (fun _ => 0%nat) 2 1 w = Maybe.Ret () w' /\
    Maybe.objs w' !! 2%nat = Some (full_maybe 7%nat) /\
    Maybe.objs w' !! 1%nat = Some empty_maybe /\
    (forall a, a <> 2%nat -> a <> 1%nat -> Maybe.objs w' !! a = Maybe.objs w !! a) /\
    Maybe.destroyed w' = Maybe.destroyed w ++ [0%nat] /\
    Maybe.leaked w' = Maybe.leaked w.
Proof.
  intros w.
  assert (Hfree : Maybe.objs w !! 2%nat = None) by reflexivity.
  assert (Hother : Maybe.objs w !! 1%nat = Some (full_maybe 7%nat)) by reflexivity.
  exact (maybe_move_construction (fun _ => 0%nat) w 2 1 7%nat Hfree Hother).
Defined.

(** * [Parser::take_argv] *)

Section ParserFacts.
Context {String_ Parameter_ : Type}.

Lemma take_argv_loop (argv args : list String_) (i n : nat) :
  (i + n <= length argv)%nat ->
  foldl (Parser.emplace_back_argv String_ argv) (Some args)
    (seqZ (Z.of_nat i) (Z.of_nat n))
  = Some (args ++ take n (drop i argv)).
Proof.
  revert i args. induction n as [|n IH]; intros i args Hfit.
  - simpl. by rewrite take_0, app_nil_r.
  - rewrite seqZ_cons by lia. simpl.
    destruct (lookup_lt_is_Some_2 argv i ltac:(lia)) as [a Ha].
    rewrite Nat2Z.id, Ha.
    replace (Z.succ (Z.of_nat i)) with (Z.of_nat (S i)) by lia.
    replace (Z.pred (Z.of_nat (S n))) with (Z.of_nat n) by lia.
    rewrite IH by lia.
    rewrite (drop_S argv a i Ha). simpl. by rewrite <- app_assoc.
Qed.

Lemma drop_take_few (argc : Z) (argv : list String_) :
  argc <= 1 -> drop 1 (take (Z.to_nat argc) argv) = [].
Proof.
  intros Hfew.
  destruct (Z.to_nat argc) as [|[|k]] eqn:Hk; [reflexivity| |lia].
  destruct argv; reflexivity.
Qed.

Lemma take_argv_spec (argc : Z) (argv : list String_)
    (self : Parser.t String_ Parameter_) :
  argc <= Z.of_nat (length argv) ->
  Parser.take_argv String_ Parameter_ argc argv self =
  Some {| Parser.print_errors_ := Parser.print_errors_ self;
          Parser.arg_style_ := Parser.arg_style_ self;
          Parser.args_ := Parser.args_ self ++ drop 1 (take (Z.to_nat argc) argv);
          Parser.params_ := Parser.params_ self |}.
Proof.
  intros Hargc. unfold Parser.take_argv.
  destruct (Z_le_gt_dec argc 1) as [Hfew|Hmany].
  - replace (seqZ 1 (argc - 1)) with (@nil Z).
    + simpl. by rewrite drop_take_few, app_nil_r.
    + unfold seqZ. replace (Z.to_nat (argc - 1)) with 0%nat by lia. done.
  - replace 1 with (Z.of_nat 1) at 1 by lia.
    replace (argc - 1) with (Z.of_nat (Z.to_nat argc - 1)) by lia.
    rewrite take_argv_loop by lia.
    do 3 f_equal. rewrite take_drop_commute. f_equal. f_equal. lia.
Qed.

End ParserFacts.

(** X18.  [take_argv(argc, argv)] with [argc] no larger than the length of
    [argv] appends to the arguments already held exactly [argv[1]], ...,
    [argv[argc - 1]], in order: the program name [argv[0]] is skipped,
    nothing already held is replaced, and for [argc <= 1] (zero and
    negative counts included) nothing changes.  The style, the flag and the
    declared parameters are untouched. *)
Theorem take_argv_appends_arguments {String_ Parameter_ : Type} (argc : Z)
    (argv : list String_) (self : Parser.t String_ Parameter_) :
  argc <= Z.of_nat (length argv) ->
  Parser.take_argv String_ Parameter_ argc argv self =
    Some {| Parser.print_errors_ := Parser.print_errors_ self;
            Parser.arg_style_ := Parser.arg_style_ self;
            Parser.args_ := Parser.args_ self ++ drop 1 (take (Z.to_nat argc) argv);
            Parser.params_ := Parser.params_ self |} /\
  (argc <= 1 -> drop 1 (take (Z.to_nat argc) argv) = []).
Proof.
  intros Hargc. split; [by apply take_argv_spec|apply drop_take_few].
Qed.

Lemma take_argv_appends_arguments_witness :
  let self : Parser.t string unit :=
    {| Parser.print_errors_ := false; Parser.arg_style_ := Parser.DOS;
       Parser.args_ := ["kept"%string]; Parser.params_ := [] |} in
  let argv := ["prog"; "/o"; "out"; "extra"]%string in
  Parser.take_argv string unit 3 argv self =
    Some {| Parser.print_errors_ := false; Parser.arg_style_ := Parser.DOS;
            Parser.args_ := ["kept"; "/o"; "out"]%string; Parser.params_ := [] |} /\
  (3 <= 1 -> drop 1 (take (Z.to_nat 3) argv) = []).
Proof.
  intros self argv.
  assert (Hargc : 3 <= Z.of_nat (length argv)) by (simpl; lia).
  exact (take_argv_appends_arguments 3 argv self Hargc).
Defined.

(** * Operators never write nothing *)

(** X19.  No formatting operator ever passes an empty span to [write],
    whatever the stream (for character types whose units occupy at least one
    byte): an empty text view, the zero character and a failed conversion
    make no call at all. *)
Theorem operators_never_write_empty (x : Operand) :
  units_nonempty x -> CallWrite [] ∉ operand_calls x.
Proof.
  intros Hunits.
  assert (Hview : forall T (C : Character T) (str : list T),
             (forall c : T, unit_bytes c <> []) ->
             CallWrite [] ∉ Recorder.seen (shl_view str ([] : Recorder.t))).
  { intros T C [|c rest] Hne; simpl; [apply not_elem_of_nil|].
    intros Hin. apply list_elem_of_singleton in Hin.
    injection Hin as Hin. symmetry in Hin. unfold as_bytes in Hin. simpl in Hin.
    apply app_eq_nil in Hin as [Hin _]. by apply (Hne c). }
  assert (Hbyte : forall c : byte, unit_bytes c <> []) by done.
  assert (Hconv : forall conv,
             CallWrite [] ∉ Recorder.seen (shl_converted conv ([] : Recorder.t))).
  { intros [buff r]. unfold shl_converted.
    destruct (decide (ec r = errc_none)); [by apply Hview|apply not_elem_of_nil]. }
  unfold operand_calls.
  destruct x as [tok|tok|T C value|T C value| value |T C str]; simpl in *.
  - intros Hin. apply list_elem_of_singleton in Hin. discriminate Hin.
  - vm_compute. intros Hin.
    apply elem_of_cons in Hin as [Hin|Hin]; [discriminate Hin|].
    apply list_elem_of_singleton in Hin. discriminate Hin.
  - unfold shl_char. by apply Hview.
  - unfold shl_number. apply Hconv.
  - unfold shl_pointer. apply Hconv.
  - by apply Hview.
Qed.

Lemma operators_never_write_empty_witness :
  CallWrite [] ∉ operand_calls (OpView (bytes_of "")).
Proof.
  apply (operators_never_write_empty (OpView (bytes_of ""))).
  intros c. discriminate.
Defined.
